(** * feishu-messager: the mention resolver and the dispatch driver

    A shallow embedding of [main.go].  Go strings are byte sequences and are
    modelled as [list ascii]; the library routines the program calls
    ([strings.Split], [strings.SplitN], [strings.TrimSpace], [strings.ToUpper],
    [strings.ReplaceAll], [utf8.DecodeRune], [json.Unmarshal], ...) are
    modelled after the Go standard library, each next to the call it serves. *)

From Stdlib Require Import ZArith Ascii String List Bool Lia DecimalString.
From stdpp Require Import base option list gmap strings.

Local Open Scope Z_scope.
Local Open Scope list_scope.

(** ** Go strings *)

Abbreviation gostring := (list ascii).

(** A Go string literal. *)
Definition lit (s : string) : gostring := list_ascii_of_string s.

Definition dquote : ascii := "034"%char.
Definition squote : ascii := "039"%char.

(** A Go raw string literal whose double quotes are written as single
    quotes: [raw "{'login':'a'}"] is the text [{"login":"a"}]. *)
Definition raw (s : string) : gostring :=
  map (fun c => if Ascii.eqb c squote then dquote else c) (lit s).

(** [s[i]] as a number, and back. *)
Definition byte_val (c : ascii) : Z := Z.of_N (N_of_ascii c).
Definition byte_of (z : Z) : ascii := ascii_of_N (Z.to_N (z mod 256)).

Definition between (lo hi x : Z) : bool := (lo <=? x) && (x <=? hi).

(** ** Package unicode/utf8 *)

Module utf8.

Definition RuneError : Z := 65533.
Definition RuneSelf : Z := 128.
Definition MaxRune : Z := 1114111.
Definition UTFMax : nat := 4.

(** The table [first] together with [acceptRanges]: for a leading byte, the
    length of the sequence and the range the second byte must lie in.
    [None] is the entry [xx] (an illegal leading byte). *)
Definition first (p0 : Z) : option (nat * Z * Z) :=
  if between 194 223 p0 then Some (2%nat, 128, 191)
  else if p0 =? 224 then Some (3%nat, 160, 191)
  else if between 225 236 p0 then Some (3%nat, 128, 191)
  else if p0 =? 237 then Some (3%nat, 128, 159)
  else if between 238 239 p0 then Some (3%nat, 128, 191)
  else if p0 =? 240 then Some (4%nat, 144, 191)
  else if between 241 243 p0 then Some (4%nat, 128, 191)
  else if p0 =? 244 then Some (4%nat, 128, 143)
  else None.

Definition at_ (p : gostring) (i : nat) : Z := byte_val (nth i p zero).

Definition DecodeRune (p : gostring) : Z * nat :=
  let n := length p in
  if (n <? 1)%nat then (RuneError, 0%nat)
  else
    let p0 := at_ p 0 in
    if p0 <? RuneSelf then (p0, 1%nat)
    else match first p0 with
    | None => (RuneError, 1%nat)
    | Some (sz, lo, hi) =>
      if (n <? sz)%nat then (RuneError, 1%nat)
      else
        let b1 := at_ p 1 in
        if negb (between lo hi b1) then (RuneError, 1%nat)
        else if (sz <=? 2)%nat then
          (Z.lor (Z.shiftl (Z.land p0 31) 6) (Z.land b1 63), 2%nat)
        else
          let b2 := at_ p 2 in
          if negb (between 128 191 b2) then (RuneError, 1%nat)
          else if (sz <=? 3)%nat then
            (Z.lor (Z.lor (Z.shiftl (Z.land p0 15) 12)
                          (Z.shiftl (Z.land b1 63) 6))
                   (Z.land b2 63), 3%nat)
          else
            let b3 := at_ p 3 in
            if negb (between 128 191 b3) then (RuneError, 1%nat)
            else
              (Z.lor (Z.lor (Z.lor (Z.shiftl (Z.land p0 7) 18)
                                   (Z.shiftl (Z.land b1 63) 12))
                            (Z.shiftl (Z.land b2 63) 6))
                     (Z.land b3 63), 4%nat)
    end.

Definition RuneStart (b : Z) : bool := negb (Z.land b 192 =? 128).

(** The backward search of [DecodeLastRune]: starting below the last byte,
    step down while the byte is a continuation byte, at most to [lim]. *)
Fixpoint find_start (p : gostring) (lim : nat) (steps : nat) (start : Z) : Z :=
  match steps with
  | O => start
  | S k =>
    if start <? Z.of_nat lim then start
    else if RuneStart (at_ p (Z.to_nat start)) then start
    else find_start p lim k (start - 1)
  end.

Definition DecodeLastRune (p : gostring) : Z * nat :=
  let end_ := length p in
  if (end_ =? 0)%nat then (RuneError, 0%nat)
  else
    let r := at_ p (end_ - 1) in
    if r <? RuneSelf then (r, 1%nat)
    else
      let lim := (end_ - UTFMax)%nat in
      let start := find_start p lim UTFMax (Z.of_nat end_ - 2) in
      let start := Z.to_nat (Z.max start 0) in
      let '(r, size) := DecodeRune (drop start p) in
      if negb (start + size =? end_)%nat then (RuneError, 1%nat)
      else (r, size).

(** [AppendRune nil r]: the UTF-8 encoding of a rune. *)
Definition EncodeRune (r : Z) : gostring :=
  if between 0 127 r then [byte_of r]
  else if between 0 2047 r then
    [byte_of (Z.lor 192 (Z.shiftr r 6)); byte_of (Z.lor 128 (Z.land r 63))]
  else
    let r := if (r <? 0) || (MaxRune <? r) || between 55296 57343 r
             then RuneError else r in
    if r <=? 65535 then
      [byte_of (Z.lor 224 (Z.shiftr r 12));
       byte_of (Z.lor 128 (Z.land (Z.shiftr r 6) 63));
       byte_of (Z.lor 128 (Z.land r 63))]
    else
      [byte_of (Z.lor 240 (Z.shiftr r 18));
       byte_of (Z.lor 128 (Z.land (Z.shiftr r 12) 63));
       byte_of (Z.lor 128 (Z.land (Z.shiftr r 6) 63));
       byte_of (Z.lor 128 (Z.land r 63))].

End utf8.

(** ** Package unicode *)

Module unicode.

(** [unicode.IsSpace]: the Latin-1 spaces, then the White_Space property. *)
Definition IsSpace (r : Z) : bool :=
  if r <=? 255 then
    between 9 13 r || (r =? 32) || (r =? 133) || (r =? 160)
  else
    (r =? 5760) || between 8192 8202 r || between 8232 8233 r
    || (r =? 8239) || (r =? 8287) || (r =? 12288).

End unicode.

(** ** Package strings *)

Module strings.

(** [strings.Split(s, sep)] for a one-byte separator: the pieces between
    the separators, in order; always at least one piece. *)
Fixpoint Split (s : gostring) (sep : ascii) : list gostring :=
  match s with
  | [] => [[]]
  | c :: r =>
    if Ascii.eqb c sep then [] :: Split r sep
    else match Split r sep with
         | piece :: rest => (c :: piece) :: rest
         | [] => [[c]]
         end
  end.

(** [strings.Cut(s, sep)] for a one-byte separator: the text before the
    first separator and, when there is one, the text after it. *)
Fixpoint Cut (s : gostring) (sep : ascii) : gostring * option gostring :=
  match s with
  | [] => ([], None)
  | c :: r =>
    if Ascii.eqb c sep then ([], Some r)
    else let '(before, after) := Cut r sep in (c :: before, after)
  end.

(** [strings.SplitN(s, sep, 2)] for a one-byte separator. *)
Definition SplitN2 (s : gostring) (sep : ascii) : list gostring :=
  match Cut s sep with
  | (before, Some after) => [before; after]
  | (_, None) => [s]
  end.

(** The table [asciiSpace]. *)
Definition asciiSpace (c : Z) : bool := between 9 13 c || (c =? 32).

(** [strings.TrimLeftFunc(s, f)]: [range s] yields the runes as
    [utf8.DecodeRune] does; the loop stops at the first rune [f] rejects. *)
Fixpoint TrimLeftFunc_loop (fuel : nat) (s : gostring) (f : Z -> bool)
  : gostring :=
  match fuel with
  | O => []
  | S k =>
    match s with
    | [] => []
    | _ :: _ =>
      let '(r, size) := utf8.DecodeRune s in
      if f r then TrimLeftFunc_loop k (drop size s) f else s
    end
  end.

Definition TrimLeftFunc (s : gostring) (f : Z -> bool) : gostring :=
  TrimLeftFunc_loop (length s) s f.

(** [lastIndexFunc(s, f, false)]: the loop variable [i] runs down from
    [len(s)]; the result is [-1] when every rune satisfies [f]. *)
Fixpoint lastIndexFunc_loop (fuel : nat) (s : gostring) (f : Z -> bool)
  (i : nat) : Z :=
  match fuel with
  | O => -1
  | S k =>
    if (i =? 0)%nat then -1
    else
      let '(r, size) := utf8.DecodeLastRune (take i s) in
      let i := (i - size)%nat in
      if negb (f r) then Z.of_nat i else lastIndexFunc_loop k s f i
  end.

Definition lastIndexFunc (s : gostring) (f : Z -> bool) : Z :=
  lastIndexFunc_loop (length s) s f (length s).

Definition TrimRightFunc (s : gostring) (f : Z -> bool) : gostring :=
  let i := lastIndexFunc s f in
  let i :=
    if (0 <=? i) && (utf8.RuneSelf <=? utf8.at_ s (Z.to_nat i)) then
      let '(_, wid) := utf8.DecodeRune (drop (Z.to_nat i) s) in
      i + Z.of_nat wid
    else i + 1 in
  take (Z.to_nat i) s.

Definition TrimFunc (s : gostring) (f : Z -> bool) : gostring :=
  TrimRightFunc (TrimLeftFunc s f) f.

(** The second loop of [strings.TrimSpace], on [s[start:stop]] read from
    its end ([t] is that slice reversed). *)
Fixpoint TrimSpace_stop (t : gostring) : gostring :=
  match t with
  | [] => []
  | c :: t' =>
    if utf8.RuneSelf <=? byte_val c then
      TrimRightFunc (rev t) unicode.IsSpace
    else if asciiSpace (byte_val c) then TrimSpace_stop t'
    else rev t
  end.

(** [strings.TrimSpace]: the ASCII fast path from both ends, falling back
    to the rune-aware trimming at the first non-ASCII byte met. *)
Fixpoint TrimSpace (s : gostring) : gostring :=
  match s with
  | [] => []
  | c :: s' =>
    if utf8.RuneSelf <=? byte_val c then TrimFunc s unicode.IsSpace
    else if asciiSpace (byte_val c) then TrimSpace s'
    else TrimSpace_stop (rev s)
  end.

(** [strings.ReplaceAll(s, old, new)] for one-byte [old] and [new]. *)
Definition ReplaceAll (s : gostring) (old new : ascii) : gostring :=
  map (fun c => if Ascii.eqb c old then new else c) s.

Definition isASCII (s : gostring) : bool :=
  forallb (fun c => byte_val c <? utf8.RuneSelf) s.

Definition upper_byte (c : ascii) : ascii :=
  if between 97 122 (byte_val c) then byte_of (byte_val c - 32) else c.

End strings.

(** ** Package encoding/json

    [json.Unmarshal] first checks the whole input against the JSON grammar
    ([checkValid]) and only then decodes it into the destination.  The
    model follows the two phases: [parse] yields the syntax tree of a valid
    text, with string literals unquoted as [unquoteBytes] does, and the
    [Unmarshal_*] functions store a tree into a destination of a given Go
    type.  The scanner's bound on the nesting depth is not
    modelled: [parse] accepts a valid text of any depth. *)

Module json.

#[warnings="-register-all"] Inductive value : Type :=
| Null : value
| Bool : bool -> value
| Number : gostring -> value
| String : gostring -> value
| Array : list value -> value
| Object : list (gostring * value) -> value.

(** The scanner's [isSpace]. *)
Definition isSpace (c : ascii) : bool :=
  let b := byte_val c in (b =? 32) || (b =? 9) || (b =? 13) || (b =? 10).

Fixpoint skip_space (s : gostring) : gostring :=
  match s with
  | c :: r => if isSpace c then skip_space r else s
  | [] => []
  end.

Definition isDigit (c : ascii) : bool := between 48 57 (byte_val c).

Definition hexval (c : ascii) : option Z :=
  let b := byte_val c in
  if between 48 57 b then Some (b - 48)
  else if between 97 102 b then Some (b - 97 + 10)
  else if between 65 70 b then Some (b - 65 + 10)
  else None.

(** [getu4]: the rune of a [\uXXXX] escape at the head of [s]. *)
Definition getu4 (s : gostring) : option Z :=
  match s with
  | c0 :: c1 :: h1 :: h2 :: h3 :: h4 :: _ =>
    if Ascii.eqb c0 "\"%char && Ascii.eqb c1 "u"%char then
      match hexval h1, hexval h2, hexval h3, hexval h4 with
      | Some a, Some b, Some c, Some d => Some (((a * 16 + b) * 16 + c) * 16 + d)
      | _, _, _, _ => None
      end
    else None
  | _ => None
  end.

(** [utf16.IsSurrogate] and [utf16.DecodeRune]. *)
Definition IsSurrogate (r : Z) : bool := between 55296 57343 r.

Definition utf16_DecodeRune (r1 r2 : Z) : Z :=
  if between 55296 56319 r1 && between 56320 57343 r2
  then Z.lor (Z.shiftl (r1 - 55296) 10) (r2 - 56320) + 65536
  else utf8.RuneError.

(** The one-byte escapes the scanner accepts after a backslash. *)
Definition escape (c : ascii) : option ascii :=
  let b := byte_val c in
  if (b =? 34) || (b =? 92) || (b =? 47) then Some c
  else if b =? 98 then Some (byte_of 8)
  else if b =? 102 then Some (byte_of 12)
  else if b =? 110 then Some (byte_of 10)
  else if b =? 114 then Some (byte_of 13)
  else if b =? 116 then Some (byte_of 9)
  else None.

(** A string literal after its opening quote: the scanner's
    [stateInString] and [stateInStringEsc] decide where it ends and whether
    it is valid, [unquoteBytes] gives its contents.  The result is the
    unquoted text and the input left after the closing quote. *)
Fixpoint string_body (fuel : nat) (s : gostring) : option (gostring * gostring) :=
  match fuel with
  | O => None
  | S k =>
    match s with
    | [] => None
    | c :: r =>
      let b := byte_val c in
      if b =? 34 then Some ([], r)
      else if b =? 92 then
        match r with
        | [] => None
        | e :: r' =>
          if byte_val e =? 117 then
            match getu4 s with
            | None => None
            | Some rr =>
              let after := drop 6 s in
              if IsSurrogate rr then
                let dec := match getu4 after with
                           | Some rr1 => utf16_DecodeRune rr rr1
                           | None => utf8.RuneError
                           end in
                if negb (dec =? utf8.RuneError) then
                  '(t, rest) ← string_body k (drop 6 after);
                  Some (utf8.EncodeRune dec ++ t, rest)
                else
                  '(t, rest) ← string_body k after;
                  Some (utf8.EncodeRune utf8.RuneError ++ t, rest)
              else
                '(t, rest) ← string_body k after;
                Some (utf8.EncodeRune rr ++ t, rest)
            end
          else
            ch ← escape e;
            '(t, rest) ← string_body k r';
            Some (ch :: t, rest)
        end
      else if b <? 32 then None
      else if b <? utf8.RuneSelf then
        '(t, rest) ← string_body k r;
        Some (c :: t, rest)
      else
        let '(rr, size) := utf8.DecodeRune s in
        '(t, rest) ← string_body k (drop size s);
        Some (utf8.EncodeRune rr ++ t, rest)
    end
  end.

(** The digits at the head of [s], and the input after them. *)
Fixpoint span_digits (s : gostring) : gostring * gostring :=
  match s with
  | c :: r =>
    if isDigit c then let '(ds, rest) := span_digits r in (c :: ds, rest)
    else ([], s)
  | [] => ([], [])
  end.

(** The exponent part of a number (the scanner's [stateE], [stateESign]
    and [stateE0]); [s] starts after the digits of the mantissa.  The
    result is the text of the part and the input after it. *)
Definition number_exp (s : gostring) : option (gostring * gostring) :=
  match s with
  | c :: r =>
    if (byte_val c =? 101) || (byte_val c =? 69) then
      let '(sign, r) :=
        match r with
        | sg :: r' =>
          if (byte_val sg =? 43) || (byte_val sg =? 45) then ([sg], r')
          else ([], r)
        | [] => ([], r)
        end in
      match r with
      | d :: r' =>
        if isDigit d then
          let '(ds, rest) := span_digits r' in Some (c :: sign ++ d :: ds, rest)
        else None
      | [] => None
      end
    else Some ([], s)
  | [] => Some ([], s)
  end.

(** The fraction part ([state0], [stateDot] and [stateDot0]). *)
Definition number_frac (s : gostring) : option (gostring * gostring) :=
  match s with
  | c :: r =>
    if byte_val c =? 46 then
      match r with
      | d :: r' =>
        if isDigit d then
          let '(ds, rest) := span_digits r' in
          '(e, rest') ← number_exp rest;
          Some (c :: d :: ds ++ e, rest')
        else None
      | [] => None
      end
    else number_exp s
  | [] => Some ([], s)
  end.

(** The integer part ([state0] and [state1]), then the rest. *)
Definition number_int (s : gostring) : option (gostring * gostring) :=
  match s with
  | c :: r =>
    if byte_val c =? 48 then
      '(f, rest) ← number_frac r; Some (c :: f, rest)
    else if between 49 57 (byte_val c) then
      let '(ds, rest) := span_digits r in
      '(f, rest') ← number_frac rest; Some (c :: ds ++ f, rest')
    else None
  | [] => None
  end.

(** A number literal ([stateNeg] first): its text and the input after it. *)
Definition number (s : gostring) : option (gostring * gostring) :=
  match s with
  | c :: r =>
    if byte_val c =? 45 then '(n, rest) ← number_int r; Some (c :: n, rest)
    else number_int s
  | [] => None
  end.

(** A literal name: [word] must be a prefix of the input. *)
Fixpoint literal (word s : gostring) : option gostring :=
  match word with
  | [] => Some s
  | w :: word' =>
    match s with
    | c :: r => if Ascii.eqb c w then literal word' r else None
    | [] => None
    end
  end.

(** A value that is no array and no object: a string, a literal name or a
    number ([stateBeginValue]). *)
Definition parse_scalar (s : gostring) : option (value * gostring) :=
  match s with
  | [] => None
  | c :: r =>
    let b := byte_val c in
    if b =? 34 then
      '(t, rest) ← string_body (length r) r; Some (String t, rest)
    else if b =? 116 then rest ← literal (lit "true") s; Some (Bool true, rest)
    else if b =? 102 then rest ← literal (lit "false") s; Some (Bool false, rest)
    else if b =? 110 then rest ← literal (lit "null") s; Some (Null, rest)
    else '(t, rest) ← number s; Some (Number t, rest)
  end.

(** One JSON value at the head of [s] (which starts at a non-space byte),
    the elements of an array after its opening bracket or a comma, and the
    members of an object after its opening brace or a comma.  Each gives
    the tree read and the input left. *)
Fixpoint parse_value (fuel : nat) (s : gostring) : option (value * gostring) :=
  match fuel with
  | O => None
  | S k =>
    match s with
    | [] => None
    | c :: r =>
      let b := byte_val c in
      if b =? 123 then
        match skip_space r with
        | c' :: r' =>
          if byte_val c' =? 125 then Some (Object [], r')
          else '(ms, rest) ← parse_members k (c' :: r'); Some (Object ms, rest)
        | [] => None
        end
      else if b =? 91 then
        match skip_space r with
        | c' :: r' =>
          if byte_val c' =? 93 then Some (Array [], r')
          else '(vs, rest) ← parse_elements k (c' :: r'); Some (Array vs, rest)
        | [] => None
        end
      else parse_scalar s
    end
  end
with parse_elements (fuel : nat) (s : gostring) : option (list value * gostring) :=
  match fuel with
  | O => None
  | S k =>
    '(v, rest) ← parse_value k s;
    match skip_space rest with
    | c :: r =>
      if byte_val c =? 44 then
        '(vs, rest') ← parse_elements k (skip_space r); Some (v :: vs, rest')
      else if byte_val c =? 93 then Some ([v], r)
      else None
    | [] => None
    end
  end
with parse_members (fuel : nat) (s : gostring)
  : option (list (gostring * value) * gostring) :=
  match fuel with
  | O => None
  | S k =>
    match s with
    | q :: r =>
      if byte_val q =? 34 then
        '(key, rest) ← string_body (length r) r;
        match skip_space rest with
        | c :: r1 =>
          if byte_val c =? 58 then
            '(v, rest1) ← parse_value k (skip_space r1);
            match skip_space rest1 with
            | c' :: r2 =>
              if byte_val c' =? 44 then
                '(ms, rest2) ← parse_members k (skip_space r2);
                Some ((key, v) :: ms, rest2)
              else if byte_val c' =? 125 then Some ([(key, v)], r2)
              else None
            | [] => None
            end
          else None
        | [] => None
        end
      else None
    | [] => None
    end
  end.

(** [checkValid] and the tree of the text: one value, spaces around it. *)
Definition parse (data : gostring) : option value :=
  '(v, rest) ← parse_value (2 * length data + 2) (skip_space data);
  match skip_space rest with
  | [] => Some v
  | _ :: _ => None
  end.

(** *** Decoding into the destinations the program uses *)

Inductive error : Type := SyntaxError | UnmarshalTypeError.

(** [d.saveError]: the earliest error is the one reported. *)
Definition saveError (saved new : option error) : option error :=
  match saved with
  | Some e => Some e
  | None => new
  end.

(** Case folding of an object key ([foldName]): ASCII letters go to upper
    case, and of the other runes only the long s and the Kelvin sign fold
    to an ASCII letter.  Every other rune folds to a rune outside ASCII and
    is kept as it is here; the field names of this program are ASCII, so a
    key holding such a rune matches no field either way. *)
Definition foldRune (r : Z) : Z :=
  if r =? 383 then 83 else if r =? 8490 then 75 else r.

Fixpoint foldName_loop (fuel : nat) (s : gostring) : gostring :=
  match fuel with
  | O => []
  | S k =>
    match s with
    | [] => []
    | c :: r =>
      if byte_val c <? utf8.RuneSelf then strings.upper_byte c :: foldName_loop k r
      else
        let '(rr, n) := utf8.DecodeRune s in
        utf8.EncodeRune (foldRune rr) ++ foldName_loop k (drop n s)
    end
  end.

Definition foldName (s : gostring) : gostring := foldName_loop (length s) s.

(** Whether the object key [key] selects the struct field tagged [name]. *)
Definition field_matches (name key : gostring) : bool :=
  bool_decide (key = name) || bool_decide (foldName key = foldName name).

(** [d.value] into a destination of Go type [string]: a string literal is
    stored, [null] leaves the destination as it is, anything else is a
    type error and is skipped. *)
Definition store_string (v : value) (dst : gostring)
  : gostring * option error :=
  match v with
  | Null => (dst, None)
  | String s => (s, None)
  | _ => (dst, Some UnmarshalTypeError)
  end.

End json.

(** ** The mention resolver *)

(** The anonymous struct [struct { Login string `json:"login"` }]. *)
Record Assignee : Type := { Login : gostring }.

Definition zero_Assignee : Assignee := {| Login := [] |}.

Module decode.
Import json.

(** [d.object] into an [Assignee]: the members are stored in order, a
    member whose key selects no field is skipped, decoding goes on after a
    type error. *)
Fixpoint object_Assignee (ms : list (gostring * value)) (dst : Assignee)
  : Assignee * option error :=
  match ms with
  | [] => (dst, None)
  | (key, v) :: ms' =>
    let '(dst, e) :=
      if field_matches (lit "login") key then
        let '(l, e) := store_string v (Login dst) in ({| Login := l |}, e)
      else (dst, None) in
    let '(dst, e') := object_Assignee ms' dst in
    (dst, saveError e e')
  end.

Definition value_Assignee (v : value) (dst : Assignee)
  : Assignee * option error :=
  match v with
  | Null => (dst, None)
  | Object ms => object_Assignee ms dst
  | _ => (dst, Some UnmarshalTypeError)
  end.

(** [d.array] into a nil slice: every element is decoded into a fresh zero
    value. *)
Fixpoint array_Assignees (vs : list value) : list Assignee * option error :=
  match vs with
  | [] => ([], None)
  | v :: vs' =>
    let '(a, e) := value_Assignee v zero_Assignee in
    let '(l, e') := array_Assignees vs' in
    (a :: l, saveError e e')
  end.

(** [d.value] into the slice [assignees], which is nil when the program
    decodes into it. *)
Definition value_Assignees (v : value) (dst : list Assignee)
  : list Assignee * option error :=
  match v with
  | Null => ([], None)
  | Array vs => array_Assignees vs
  | _ => (dst, Some UnmarshalTypeError)
  end.

End decode.

(** [json.Unmarshal(data, &assignees)] and [json.Unmarshal(data, &assignee)]:
    the destination after the call and the error returned.  A text that is
    not valid JSON leaves the destination untouched. *)
Definition Unmarshal_Assignees (data : gostring) (dst : list Assignee)
  : list Assignee * option json.error :=
  match json.parse data with
  | None => (dst, Some json.SyntaxError)
  | Some v => decode.value_Assignees v dst
  end.

Definition Unmarshal_Assignee (data : gostring) (dst : Assignee)
  : Assignee * option json.error :=
  match json.parse data with
  | None => (dst, Some json.SyntaxError)
  | Some v => decode.value_Assignee v dst
  end.

(** The assignees the resolver works with: the array parse, on failure the
    single record wrapped in a one-element slice; [None] when both fail. *)
Definition parse_assignees (assigneesJSON : gostring) : option (list Assignee) :=
  let '(assignees, err) := Unmarshal_Assignees assigneesJSON [] in
  match err with
  | Some _ =>
    let '(assignee, err2) := Unmarshal_Assignee assigneesJSON zero_Assignee in
    match err2 with
    | Some _ => None
    | None => Some [assignee]
    end
  | None => Some assignees
  end.

(** [loginSet]: a [map[string]bool] holding [true] at every non-empty login. *)
Definition build_loginSet (assignees : list Assignee) : gmap gostring bool :=
  foldl (fun loginSet assignee =>
           if bool_decide (Login assignee ≠ []) then
             <[Login assignee := true]> loginSet
           else loginSet)
        ∅ assignees.

(** [loginSet[username]]: a missing key reads as [false]. *)
Definition index_loginSet (loginSet : gmap gostring bool) (username : gostring)
  : bool :=
  default false (loginSet !! username).

(** [fmt.Sprintf(`<at user_id="%s">%s</at> `, openID, username)]. *)
Definition mention (openID username : gostring) : gostring :=
  raw "<at user_id='" ++ openID ++ raw "'>" ++ username ++ raw "</at> ".

(** One turn of the loop over [pairs]: [result] after the turn. *)
Definition step_pair (loginSet : gmap gostring bool) (result pair : gostring)
  : gostring :=
  let pair := strings.TrimSpace pair in
  if bool_decide (pair = []) then result
  else
    match strings.SplitN2 pair ":"%char with
    | [part0; part1] =>
      let username := strings.TrimSpace part0 in
      let openID := strings.TrimSpace part1 in
      if index_loginSet loginSet username then
        result ++ mention openID username
      else result
    | _ => result
    end.

Definition parseUsers (userMaps assigneesJSON : gostring) : gostring :=
  if bool_decide (userMaps = []) || bool_decide (assigneesJSON = []) then []
  else
    match parse_assignees assigneesJSON with
    | None => []
    | Some assignees =>
      let loginSet := build_loginSet assignees in
      let pairs := strings.Split userMaps ","%char in
      foldl (step_pair loginSet) [] pairs
    end.

(** ** The dispatch driver *)

Record TextContent : Type := { Text : gostring }.

(** [FeishuMessage]; the program only ever stores a [TextContent] in the
    [Content] field. *)
Record FeishuMessage : Type := { MsgType : gostring; Content : TextContent }.

(** [FeishuResponse]; the field [Data] is decoded and never read. *)
Record FeishuResponse : Type := { Code : Z; Msg : gostring }.

Definition webhookBaseURL : gostring :=
  lit "https://open.feishu.cn/open-apis/bot/v2/hook".

Definition StatusOK : Z := 200.

(** What the process does to its surroundings, and what they answer.  An
    error is carried as the text [%v] prints for it.
    - [environ]: the process environment;
    - [ReadFile]: [os.ReadFile];
    - [Marshal]: [json.Marshal] of the request body;
    - [NewRequest]: the error of [http.NewRequest] for a URL, if any;
    - [Do]: [client.Do] with the 30 second timeout, then [io.ReadAll] of the
      body: the status code and the bytes read, or the error of either;
    - [Unmarshal_response]: [json.Unmarshal] into a [FeishuResponse], whose
      [Data] field takes arbitrary JSON values. *)
Record World : Type := {
  environ : gmap gostring gostring;
  ReadFile : gostring -> gostring + gostring;
  Marshal : FeishuMessage -> gostring + gostring;
  NewRequest : gostring -> option gostring;
  Do : gostring -> gostring -> (Z * (gostring + gostring)) + gostring;
  Unmarshal_response : gostring -> FeishuResponse + gostring
}.

(** How a run ends: a message on standard error followed by
    [os.Exit(1)], or the last line printed before [main] returns. *)
Inductive Outcome : Type :=
| Fatal (stderr : gostring)
| Success (stdout : gostring).

Definition exit_status (o : Outcome) : Z :=
  match o with
  | Fatal _ => 1
  | Success _ => 0
  end.

(** [%d] of an [int]. *)
Definition itoa (n : Z) : gostring := lit (NilZero.string_of_int (Z.to_int n)).

Definition newline : gostring := [byte_of 10].

Section Driver.

(** [strings.Map(unicode.ToUpper, s)], the path [strings.ToUpper] takes for
    a string that is not pure ASCII. *)
Variable Map_unicode_ToUpper : gostring -> gostring.

Definition ToUpper (s : gostring) : gostring :=
  if strings.isASCII s then map strings.upper_byte s
  else Map_unicode_ToUpper s.

(** [os.Getenv]: an unset variable reads as the empty string. *)
Definition Getenv (env : gmap gostring gostring) (key : gostring) : gostring :=
  default [] (env !! key).

Definition inputKey (key : gostring) : gostring :=
  lit "INPUT_" ++ ToUpper (strings.ReplaceAll key "-"%char "_"%char).

Definition upperKey (key : gostring) : gostring := ToUpper key.

Definition getEnv (env : gmap gostring gostring) (key : gostring) : gostring :=
  let val := Getenv env (inputKey key) in
  if negb (bool_decide (val = [])) then val
  else Getenv env (upperKey key).

(** The check of the response at the end of [main]. *)
Definition check_response (StatusCode : Z) (feishuResp : FeishuResponse)
  : Outcome :=
  if negb (StatusCode =? StatusOK) || negb (Code feishuResp =? 0) then
    Fatal (lit "::error::Request failed with code " ++ itoa (Code feishuResp)
           ++ lit ": " ++ Msg feishuResp ++ newline)
  else Success (lit "::notice::Message sent successfully" ++ newline).

(** [main] up to the point where the response has been parsed: the
    outcome of an early exit, or the status code and the parsed response.
    The debug output on standard output is left out. *)
Definition main_exchange (w : World) : Outcome + (Z * FeishuResponse) :=
  let botToken := getEnv (environ w) (lit "bot_token") in
  let postMessage := getEnv (environ w) (lit "post_message") in
  let messageFile := getEnv (environ w) (lit "message_file") in
  let msgType := getEnv (environ w) (lit "msg_type") in
  let userMaps := getEnv (environ w) (lit "user_maps") in
  let assigneesJSON := getEnv (environ w) (lit "assignees") in
  if bool_decide (botToken = []) then
    inl (Fatal (lit "::error::Please set the BOT_TOKEN secret." ++ newline))
  else if bool_decide (postMessage = []) && bool_decide (messageFile = []) then
    inl (Fatal (lit "::error::Please set the post message or a file containing the message." ++ newline))
  else
    match (if bool_decide (postMessage = []) && negb (bool_decide (messageFile = []))
           then ReadFile w messageFile else inl postMessage) with
    | inr err =>
      inl (Fatal (lit "::error::File '" ++ messageFile ++ lit "' not found: "
                  ++ err ++ newline))
    | inl postMessage =>
      let postMessage :=
        if negb (bool_decide (assigneesJSON = [])) && negb (bool_decide (userMaps = []))
        then
          let atUsers := parseUsers userMaps assigneesJSON in
          if negb (bool_decide (atUsers = [])) then atUsers ++ postMessage
          else postMessage
        else postMessage in
      let msgType := if bool_decide (msgType = []) then lit "text" else msgType in
      if negb (bool_decide (msgType = lit "text"))
         && negb (bool_decide (msgType = lit "markdown")) then
        inl (Fatal (lit "::error::Unsupported MSG_TYPE: " ++ msgType
                    ++ lit ". Supported types: text, markdown" ++ newline))
      else
        let requestBody :=
          {| MsgType := lit "text"; Content := {| Text := postMessage |} |} in
        match Marshal w requestBody with
        | inr err =>
          inl (Fatal (lit "::error::Failed to marshal request body: " ++ err ++ newline))
        | inl jsonData =>
          let webhookURL := webhookBaseURL ++ lit "/" ++ botToken in
          match NewRequest w webhookURL with
          | Some err =>
            inl (Fatal (lit "::error::Failed to create request: " ++ err ++ newline))
          | None =>
            match Do w webhookURL jsonData with
            | inr err =>
              inl (Fatal (lit "::error::Failed to send request: " ++ err ++ newline))
            | inl (StatusCode, inr err) =>
              inl (Fatal (lit "::error::Failed to read response: " ++ err ++ newline))
            | inl (StatusCode, inl responseBody) =>
              match Unmarshal_response w responseBody with
              | inr err =>
                inl (Fatal (lit "::error::Failed to parse response: " ++ err ++ newline))
              | inl feishuResp => inr (StatusCode, feishuResp)
              end
            end
          end
        end
    end.

Definition main (w : World) : Outcome :=
  match main_exchange w with
  | inl o => o
  | inr (StatusCode, feishuResp) => check_response StatusCode feishuResp
  end.

End Driver.

(** A world for trying the driver: the token [T], the message
    [Build failed], a transport that answers status 200 with the given
    body on the webhook URL of [T], and a response decoder that knows two
    bodies. *)
Definition example_world (body : gostring) : World := {|
  environ := {[lit "INPUT_BOT_TOKEN" := lit "T";
               lit "POST_MESSAGE" := lit "Build failed"]};
  ReadFile := fun _ => inr (lit "no such file");
  Marshal := fun m => inl (Text (Content m));
  NewRequest := fun _ => None;
  Do := fun url _ =>
    if bool_decide (url = lit "https://open.feishu.cn/open-apis/bot/v2/hook/T")
    then inl (200, inl body) else inr (lit "no route");
  Unmarshal_response := fun body =>
    if bool_decide (body = lit "ok") then inl {| Code := 0; Msg := lit "ok" |}
    else inl {| Code := 19001; Msg := lit "bad token" |}
|}.

(** ** The resolver's steps as data

    The loop of [parseUsers] read as three plain steps: the valid pairs of
    the user map in the order they are written, the test a username has to
    pass, and the token written for a pair. *)



(** The pair a comma-separated piece stands for, [None] for a piece the
    loop skips. *)
Definition pair_of (piece : gostring) : option (gostring * gostring) :=
  let pair := strings.TrimSpace piece in
  if bool_decide (pair = []) then None
  else
    match strings.Cut pair ":"%char with
    | (part0, Some part1) =>
      Some (strings.TrimSpace part0, strings.TrimSpace part1)
    | (_, None) => None
    end.

(** The valid [(username, openID)] pairs of a user map, in input order. *)
Definition valid_pairs (userMaps : gostring) : list (gostring * gostring) :=
  omap pair_of (strings.Split userMaps ","%char).

(** Membership in LoginSet, stated on the assignee records. *)
Definition assigned (assignees : list Assignee) (username : gostring) : bool :=
  bool_decide (username ≠ [] ∧ username ∈ map Login assignees).

Definition token (p : gostring * gostring) : gostring := mention p.2 p.1.

(** The pairs a token is written for. *)
Definition emitted (assignees : list Assignee) (userMaps : gostring)
  : list (gostring * gostring) :=
  List.filter (fun p => assigned assignees p.1) (valid_pairs userMaps).

(** ** The driver in two halves

    [main_exchange] cut where the request leaves the process: everything up
    to [http.NewRequest], then the exchange with the service.  The lemma
    [main_exchange_halves] puts the halves together again. *)

(** [main] up to [http.NewRequest]: the outcome of an early exit, or the
    webhook URL and the payload of the POST request. *)
Definition main_prepare (Map_unicode_ToUpper : gostring -> gostring)
  (w : World) : Outcome + (gostring * gostring) :=
  let getEnv := getEnv Map_unicode_ToUpper in
  let botToken := getEnv (environ w) (lit "bot_token") in
  let postMessage := getEnv (environ w) (lit "post_message") in
  let messageFile := getEnv (environ w) (lit "message_file") in
  let msgType := getEnv (environ w) (lit "msg_type") in
  let userMaps := getEnv (environ w) (lit "user_maps") in
  let assigneesJSON := getEnv (environ w) (lit "assignees") in
  if bool_decide (botToken = []) then
    inl (Fatal (lit "::error::Please set the BOT_TOKEN secret." ++ newline))
  else if bool_decide (postMessage = []) && bool_decide (messageFile = []) then
    inl (Fatal (lit "::error::Please set the post message or a file containing the message." ++ newline))
  else
    match (if bool_decide (postMessage = []) && negb (bool_decide (messageFile = []))
           then ReadFile w messageFile else inl postMessage) with
    | inr err =>
      inl (Fatal (lit "::error::File '" ++ messageFile ++ lit "' not found: "
                  ++ err ++ newline))
    | inl postMessage =>
      let postMessage :=
        if negb (bool_decide (assigneesJSON = [])) && negb (bool_decide (userMaps = []))
        then
          let atUsers := parseUsers userMaps assigneesJSON in
          if negb (bool_decide (atUsers = [])) then atUsers ++ postMessage
          else postMessage
        else postMessage in
      let msgType := if bool_decide (msgType = []) then lit "text" else msgType in
      if negb (bool_decide (msgType = lit "text"))
         && negb (bool_decide (msgType = lit "markdown")) then
        inl (Fatal (lit "::error::Unsupported MSG_TYPE: " ++ msgType
                    ++ lit ". Supported types: text, markdown" ++ newline))
      else
        let requestBody :=
          {| MsgType := lit "text"; Content := {| Text := postMessage |} |} in
        match Marshal w requestBody with
        | inr err =>
          inl (Fatal (lit "::error::Failed to marshal request body: " ++ err ++ newline))
        | inl jsonData =>
          let webhookURL := webhookBaseURL ++ lit "/" ++ botToken in
          match NewRequest w webhookURL with
          | Some err =>
            inl (Fatal (lit "::error::Failed to create request: " ++ err ++ newline))
          | None => inr (webhookURL, jsonData)
          end
        end
    end.

(** [main] from [client.Do] to the parsed response. *)
Definition main_roundtrip (w : World) (webhookURL jsonData : gostring)
  : Outcome + (Z * FeishuResponse) :=
  match Do w webhookURL jsonData with
  | inr err =>
    inl (Fatal (lit "::error::Failed to send request: " ++ err ++ newline))
  | inl (StatusCode, inr err) =>
    inl (Fatal (lit "::error::Failed to read response: " ++ err ++ newline))
  | inl (StatusCode, inl responseBody) =>
    match Unmarshal_response w responseBody with
    | inr err =>
      inl (Fatal (lit "::error::Failed to parse response: " ++ err ++ newline))
    | inl feishuResp => inr (StatusCode, feishuResp)
    end
  end.

(** A world with another environment, and one with another file system. *)
Definition with_environ (w : World) (env : gmap gostring gostring) : World :=
  {| environ := env; ReadFile := ReadFile w; Marshal := Marshal w;
     NewRequest := NewRequest w; Do := Do w;
     Unmarshal_response := Unmarshal_response w |}.

Definition with_ReadFile (w : World) (rf : gostring -> gostring + gostring)
  : World :=
  {| environ := environ w; ReadFile := rf; Marshal := Marshal w;
     NewRequest := NewRequest w; Do := Do w;
     Unmarshal_response := Unmarshal_response w |}.

(** The message types [main] lets through; the unset one stands for
    [text]. *)
Definition supported_msgType (msgType : gostring) : Prop :=
  msgType = [] \/ msgType = lit "text" \/ msgType = lit "markdown".

(** ** Pieces put together again

    The pieces of [strings.Split] and [strings.SplitN] with the separator
    between them, as [strings.Join] writes them. *)
Fixpoint Join (pieces : list gostring) (sep : ascii) : gostring :=
  match pieces with
  | [] => []
  | p :: rest =>
    match rest with
    | [] => p
    | _ :: _ => p ++ sep :: Join rest sep
    end
  end.

(** A record the array decode rejects: an element that is neither an object
    nor [null], or an object whose [login] is neither a string nor [null]. *)
Definition bad_login (v : json.value) : bool :=
  match v with
  | json.Null | json.String _ => false
  | _ => true
  end.

Definition bad_record (v : json.value) : bool :=
  match v with
  | json.Null => false
  | json.Object ms =>
    existsb (fun m => json.field_matches (lit "login") m.1 && bad_login m.2) ms
  | _ => true
  end.

(** A byte no rune other than its own letter folds to: an ASCII byte that
    is neither [S] nor [K]. *)
Definition plain_byte (c : ascii) : bool :=
  (byte_val c <? 128) && negb (byte_val c =? 83) && negb (byte_val c =? 75).

(** ** Assignee texts in compact form

    The text of an assignee record and of an array of records without any
    white space, for logins that need no escaping in a JSON string:
    printable ASCII without the double quote and the backslash. *)
Definition plain_login (login : gostring) : bool :=
  forallb (fun c => (32 <=? byte_val c) && (byte_val c <? 128)
                    && negb (byte_val c =? 34) && negb (byte_val c =? 92))
          login.

Definition record_text (login : gostring) : gostring :=
  raw "{'login':'" ++ login ++ raw "'}".

Definition array_text (logins : list gostring) : gostring :=
  "["%char :: Join (map record_text logins) ","%char ++ ["]"%char].

(** * Properties *)

(** ** The model at work *)

(** ASCII white space is trimmed at both ends (the piece ends in a tab and
    a space). *)
Example TrimSpace_ascii :
  strings.TrimSpace (lit "  a b" ++ [byte_of 9; byte_of 32]) = lit "a b".
Proof. reflexivity. Qed.

(** So are U+00A0 in front and U+3000 behind. *)
Example TrimSpace_unicode :
  strings.TrimSpace ([byte_of 194; byte_of 160] ++ lit "a"
                     ++ [byte_of 227; byte_of 128; byte_of 128])
  = lit "a".
Proof. vm_compute. reflexivity. Qed.

(** Bytes that are not valid UTF-8 are no white space. *)
Example TrimSpace_invalid :
  strings.TrimSpace ([byte_of 194] ++ lit "a" ++ [byte_of 128; byte_of 32])
  = [byte_of 194] ++ lit "a" ++ [byte_of 128].
Proof. vm_compute. reflexivity. Qed.

Example Split_commas :
  strings.Split (lit "a:1,,b") ","%char = [lit "a:1"; []; lit "b"].
Proof. reflexivity. Qed.

Example parse_nested :
  json.parse (raw "[{'login':'b', 'x': [1, -2.5e+3, true, null, {}]} , {'login':'\u00e9\ud83d\ude00\n'}]")
  = Some (json.Array
      [json.Object
         [(lit "login", json.String (lit "b"));
          (lit "x", json.Array [json.Number (lit "1"); json.Number (lit "-2.5e+3");
                                json.Bool true; json.Null; json.Object []])];
       json.Object
         [(lit "login",
           json.String [byte_of 195; byte_of 169; byte_of 240; byte_of 159;
                        byte_of 152; byte_of 128; byte_of 10])]]).
Proof. vm_compute. reflexivity. Qed.

Example parse_rejects :
  json.parse (raw "{not json") = None
  /\ json.parse (raw "[1,]") = None
  /\ json.parse (raw "01") = None
  /\ json.parse (raw " 1. ") = None
  /\ json.parse (raw "{'a':1,}") = None
  /\ json.parse (raw "[1] x") = None.
Proof. vm_compute. repeat split. Qed.

(** Keys are matched without regard to case, a colon in the ID is kept, a
    piece without a colon and a pair without a username are passed over. *)
Example parseUsers_mixed :
  parseUsers (lit " a : 1:2 , x, :9, b:2 ,a:7") (raw "{'LOGIN':'a'}")
  = raw "<at user_id='1:2'>a</at> <at user_id='7'>a</at> ".
Proof. vm_compute. reflexivity. Qed.

(** ** Lists of bytes and the [strings] routines *)

Lemma Split_nonempty s sep : strings.Split s sep ≠ [].
Proof. destruct s as [|c r]; simpl; [done|]. destruct (Ascii.eqb c sep); [done|]. by destruct (strings.Split r sep). Qed.

(** Splitting distributes over a separator in the middle. *)
Lemma Split_app s1 s2 sep :
  strings.Split (s1 ++ sep :: s2) sep = strings.Split s1 sep ++ strings.Split s2 sep.
Proof.
  induction s1 as [|c r IH]; simpl.
  - by rewrite Ascii.eqb_refl.
  - destruct (Ascii.eqb c sep); [by rewrite IH|].
    rewrite IH. pose proof (Split_nonempty r sep).
    by destruct (strings.Split r sep).
Qed.

(** A piece without the separator is a single piece. *)
Lemma Split_no_sep s sep : sep ∉ s -> strings.Split s sep = [s].
Proof.
  induction s as [|c r IH]; intros Hn; simpl; [done|].
  destruct (Ascii.eqb_spec c sep) as [->|Hne].
  - exfalso. apply Hn. left.
  - rewrite IH; [done|]. intros Hin. apply Hn. by right.
Qed.

(** [Cut] finds the first separator: the text before it holds none, and
    the text after it is everything that follows. *)
Lemma Cut_Some s sep before after :
  strings.Cut s sep = (before, Some after) <->
  s = before ++ sep :: after /\ sep ∉ before.
Proof.
  revert before. induction s as [|c r IH]; intros before; simpl.
  - split; [done|]. intros [H _]. by destruct before.
  - destruct (Ascii.eqb_spec c sep) as [->|Hne].
    + split.
      * intros [= <- <-]. split; [done|]. apply not_elem_of_nil.
      * intros [H Hn]. destruct before as [|b before']; simplify_eq/=; [done|].
        exfalso. apply Hn. left.
    + destruct (strings.Cut r sep) as [b' a'] eqn:E. split.
      * intros [= <- ->]. destruct (proj1 (IH b') eq_refl) as [-> Hn].
        split; [done|]. intros Hin. apply elem_of_cons in Hin as [->|Hin]; [done|]. by apply Hn.
      * intros [H Hn]. destruct before as [|b before']; simplify_eq/=.
        assert (Hn' : sep ∉ before') by (intros Hin; apply Hn; by right).
        pose proof (proj2 (IH before') (conj eq_refl Hn')) as E'.
        by simplify_eq.
Qed.

Lemma Cut_None s sep before :
  strings.Cut s sep = (before, None) <-> before = s /\ sep ∉ s.
Proof.
  revert before. induction s as [|c r IH]; intros before; simpl.
  - split; [intros [= <-]; split; [done|apply not_elem_of_nil]|by intros [-> _]].
  - destruct (Ascii.eqb_spec c sep) as [->|Hne].
    + split; [done|]. intros [_ Hn]. exfalso. apply Hn. left.
    + destruct (strings.Cut r sep) as [b' a'] eqn:E. split.
      * intros [= <- ->]. destruct (proj1 (IH b') eq_refl) as [-> Hn].
        split; [done|]. intros Hin. apply elem_of_cons in Hin as [->|Hin]; [done|]. by apply Hn.
      * intros [-> Hn].
        assert (Hn' : sep ∉ r) by (intros Hin; apply Hn; by right).
        destruct a' as [a'|].
        -- destruct (proj1 (Cut_Some r sep b' a') E) as [-> _].
           exfalso. apply Hn'. apply elem_of_app. right. left.
        -- by destruct (proj1 (IH b') eq_refl) as [-> _].
Qed.



Lemma isASCII_cons c s :
  strings.isASCII (c :: s) = true ->
  (utf8.RuneSelf <=? byte_val c) = false /\ strings.isASCII s = true.
Proof.
  unfold strings.isASCII. simpl. intros [H1 H2]%andb_true_iff. split; [|done].
  apply Z.ltb_lt in H1. apply Z.leb_gt. done.
Qed.



(** ** LoginSet *)

Lemma build_loginSet_lookup assignees username :
  index_loginSet (build_loginSet assignees) username = assigned assignees username.
Proof.
  unfold build_loginSet, assigned, index_loginSet.
  assert (G : forall (m : gmap gostring bool),
    default false (foldl (fun loginSet assignee =>
        if bool_decide (Login assignee ≠ []) then <[Login assignee := true]> loginSet
        else loginSet) m assignees !! username)
    = default false (m !! username)
      || bool_decide (username ≠ [] ∧ username ∈ map Login assignees)).
  { induction assignees as [|a l IH]; intros m; simpl.
    - rewrite bool_decide_eq_false_2; [by rewrite orb_false_r|].
      intros [_ H]. by apply elem_of_nil in H.
    - rewrite IH. destruct (decide (Login a = [])) as [Ha|Ha].
      + rewrite (bool_decide_eq_false_2 (Login a ≠ [])) by (intros H; by apply H).
        f_equal. apply bool_decide_ext. rewrite elem_of_cons. intuition congruence.
      + rewrite (bool_decide_eq_true_2 (Login a ≠ [])) by done.
        destruct (decide (Login a = username)) as [<-|Hne].
        * rewrite lookup_insert_eq. simpl.
          rewrite (bool_decide_eq_true_2 (_ ∧ Login a ∈ Login a :: _)).
          -- by rewrite orb_true_r.
          -- split; [done|]. left.
        * rewrite lookup_insert_ne by done. f_equal.
          apply bool_decide_ext. rewrite elem_of_cons. intuition congruence. }
  rewrite G, lookup_empty. done.
Qed.

(** ** The loop of [parseUsers] *)

(** What one piece adds to [result]. *)
Lemma step_pair_spec loginSet result piece :
  step_pair loginSet result piece =
  result ++ match pair_of piece with
            | Some (username, openID) =>
              if index_loginSet loginSet username then mention openID username
              else []
            | None => []
            end.
Proof.
  unfold step_pair, pair_of, strings.SplitN2.
  case_bool_decide; [by rewrite app_nil_r|].
  destruct (strings.Cut (strings.TrimSpace piece) ":") as [b [a|]].
  - destruct (index_loginSet _ _); [done|by rewrite app_nil_r].
  - by rewrite app_nil_r.
Qed.

Lemma foldl_step_pair loginSet result pieces :
  foldl (step_pair loginSet) result pieces =
  result ++ concat (map (fun p : gostring * gostring => mention p.2 p.1)
              (List.filter (fun p : gostring * gostring => index_loginSet loginSet p.1)
                           (omap pair_of pieces))).
Proof.
  revert result. induction pieces as [|piece l IH]; intros result; simpl.
  - by rewrite app_nil_r.
  - rewrite IH, step_pair_spec. destruct (pair_of piece) as [[u i]|]; simpl.
    + destruct (index_loginSet loginSet u); simpl; [by rewrite <- app_assoc|by rewrite app_nil_r].
    + by rewrite app_nil_r.
Qed.

Lemma parse_assignees_nil : parse_assignees [] = None.
Proof. reflexivity. Qed.

(** The resolver is: parse the assignees, keep the valid pairs whose
    username is assigned, write their tokens in that order. *)
Lemma parseUsers_spec userMaps assigneesJSON :
  parseUsers userMaps assigneesJSON =
  match parse_assignees assigneesJSON with
  | None => []
  | Some assignees => concat (map token (emitted assignees userMaps))
  end.
Proof.
  unfold parseUsers.
  destruct (decide (assigneesJSON = [])) as [->|Ha].
  { rewrite parse_assignees_nil. by rewrite orb_true_r. }
  destruct (decide (userMaps = [])) as [->|Hm].
  { simpl. by destruct (parse_assignees assigneesJSON). }
  rewrite !bool_decide_eq_false_2 by done. simpl.
  destruct (parse_assignees assigneesJSON) as [l|]; [|done].
  rewrite foldl_step_pair. simpl. unfold emitted, valid_pairs, token.
  f_equal. f_equal. apply List.filter_ext. intros p. apply build_loginSet_lookup.
Qed.

(** ** The JSON reader: a closing bracket after the text

    What is read from a text does not change when a closing bracket and
    anything else follow it.  This is what makes [[o]] parse as the
    one-element array of what [o] parses as. *)


Lemma first_spec p0 sz lo hi :
  utf8.first p0 = Some (sz, lo, hi) ->
  (sz = 2 \/ sz = 3 \/ sz = 4)%nat /\ 128 <= lo.
Proof.
  unfold utf8.first. intros H.
  repeat match type of H with
         | (if ?c then _ else _) = _ => destruct c
         end; simplify_eq; lia.
Qed.


Lemma DecodeRune_size s r size :
  s ≠ [] -> utf8.DecodeRune s = (r, size) -> (1 <= size <= length s)%nat.
Proof.
  intros Hs. unfold utf8.DecodeRune.
  destruct s as [|c0 s']; [done|]. simpl length. simpl (_ <? 1)%nat.
  destruct (utf8.at_ _ 0 <? _); [intros [= <- <-]; lia|].
  destruct (utf8.first _) as [[[sz lo] hi]|] eqn:F; [|intros [= <- <-]; lia].
  apply first_spec in F as [Hsz _].
  destruct (S (length s') <? sz)%nat eqn:Hn; [intros [= <- <-]; lia|].
  apply Nat.ltb_ge in Hn.
  destruct (negb _); [intros [= <- <-]; lia|].
  destruct (sz <=? 2)%nat eqn:H2; [intros [= <- <-]; lia|].
  apply Nat.leb_gt in H2.
  destruct (negb _); [intros [= <- <-]; lia|].
  destruct (sz <=? 3)%nat eqn:H3; [intros [= <- <-]; lia|].
  apply Nat.leb_gt in H3.
  destruct (negb _); intros [= <- <-]; lia.
Qed.





Lemma getu4_length s x : json.getu4 s = Some x -> (6 <= length s)%nat.
Proof.
  destruct s as [|c0 [|c1 [|h1 [|h2 [|h3 [|h4 s]]]]]]; try done. simpl. lia.
Qed.

(** Peel one test off a hypothesis that says a reader succeeded. *)
Ltac peel H :=
  match type of H with
  | None = Some _ => discriminate H
  | (if ?c then _ else _) = Some _ => destruct c eqn:?
  | match ?l with [] => _ | _ :: _ => _ end = Some _ => destruct l eqn:?
  | match ?o with Some _ => _ | None => _ end = Some _ => destruct o eqn:?
  | (let '(_, _) := ?p in _) = Some _ => destruct p eqn:?
  end.

Lemma string_body_mono n s x :
  json.string_body n s = Some x ->
  forall m, (n <= m)%nat -> json.string_body m s = Some x.
Proof.
  revert s x. induction n as [|n IH]; intros s x H m Hm; [done|].
  destruct m as [|m]; [lia|]. simpl in H |- *.
  repeat (peel H; simpl in H |- *; try done);
    repeat match type of H with
           | context [json.escape ?a] =>
             destruct (json.escape a); simpl in H |- *; [|discriminate H]
           | context [json.string_body n ?a] =>
             let E := fresh "E" in
             destruct (json.string_body n a) as [[? ?]|] eqn:E; simpl in H;
             [rewrite (IH _ _ E m) by lia; simpl|discriminate H]
           end; try done.
Qed.









(** More fuel never changes what the reader returns. *)
Lemma parse_mono n :
  (forall s x, json.parse_value n s = Some x ->
     forall m, (n <= m)%nat -> json.parse_value m s = Some x) /\
  (forall s x, json.parse_elements n s = Some x ->
     forall m, (n <= m)%nat -> json.parse_elements m s = Some x) /\
  (forall s x, json.parse_members n s = Some x ->
     forall m, (n <= m)%nat -> json.parse_members m s = Some x).
Proof.
  induction n as [|n (IHv & IHe & IHm)]; [done|].
  assert (Hv : forall a y m, json.parse_value n a = Some y -> (S n <= S m)%nat ->
                  json.parse_value m a = Some y) by (intros; apply (IHv a); [done|lia]).
  assert (He : forall a y m, json.parse_elements n a = Some y -> (S n <= S m)%nat ->
                  json.parse_elements m a = Some y) by (intros; apply (IHe a); [done|lia]).
  assert (Hm : forall a y m, json.parse_members n a = Some y -> (S n <= S m)%nat ->
                  json.parse_members m a = Some y) by (intros; apply (IHm a); [done|lia]).
  repeat split; intros s x H m Hle; (destruct m as [|m]; [lia|]);
    cbn [json.parse_value json.parse_elements json.parse_members] in H |- *;
    cbv zeta in H |- *;
    repeat first
      [ exact H
      | discriminate H
      | match type of H with
        | (if ?c then _ else _) = Some _ => destruct c eqn:?
        | match ?l with [] => _ | _ :: _ => _ end = Some _ => destruct l eqn:?
        | mbind _ (json.parse_value n ?a) = Some _ =>
          let E := fresh "E" in
          destruct (json.parse_value n a) as [[? ?]|] eqn:E; [|discriminate H];
          rewrite (Hv _ _ m E Hle)
        | mbind _ (json.parse_elements n ?a) = Some _ =>
          let E := fresh "E" in
          destruct (json.parse_elements n a) as [[? ?]|] eqn:E; [|discriminate H];
          rewrite (He _ _ m E Hle)
        | mbind _ (json.parse_members n ?a) = Some _ =>
          let E := fresh "E" in
          destruct (json.parse_members n a) as [[? ?]|] eqn:E; [|discriminate H];
          rewrite (Hm _ _ m E Hle)
        | mbind _ ?o = Some _ => destruct o as [[? ?]|]; [|discriminate H]
        end; cbn [mbind option_bind] in H |- * ].
Qed.





(** ** The fuel of the JSON reader is enough *)

Lemma skip_space_length s : (length (json.skip_space s) <= length s)%nat.
Proof. induction s as [|c s IH]; simpl; [done|]. destruct (json.isSpace c); simpl; lia. Qed.

Lemma skip_space_cons_length s c r :
  json.skip_space s = c :: r -> (S (length r) <= length s)%nat.
Proof. intros H. pose proof (skip_space_length s) as Hl. rewrite H in Hl. done. Qed.

Lemma string_body_length n s x r :
  json.string_body n s = Some (x, r) -> (length r < length s)%nat.
Proof.
  revert s x r. induction n as [|n IH]; intros s x r H; [done|].
  destruct s as [|c r0]; [done|]. cbn [json.string_body] in H. cbv zeta in H.
  destruct (byte_val c =? 34). { simplify_eq. simpl. lia. }
  destruct (byte_val c =? 92).
  { destruct r0 as [|e' r']; [done|]. destruct (byte_val e' =? 117).
    - destruct (json.getu4 _) as [rr|] eqn:G; [|done].
      pose proof (getu4_length _ _ G) as Hlen.
      assert (Hd : (length (drop 6 (c :: e' :: r')) < length (c :: e' :: r'))%nat)
        by (rewrite length_drop; lia).
      assert (Hd' : (length (drop 6 (drop 6 (c :: e' :: r'))) < length (c :: e' :: r'))%nat)
        by (rewrite !length_drop; lia).
      repeat match type of H with
             | (if ?b then _ else _) = _ => destruct b
             | mbind _ ?o = _ =>
               let E := fresh "E" in
               destruct o as [[? ?]|] eqn:E; [apply IH in E|done]; simpl in H; simplify_eq
             end; lia.
    - destruct (json.escape e'); [|done]. simpl in H.
      destruct (json.string_body n r') as [[? ?]|] eqn:E; [apply IH in E|done].
      simpl in H. simplify_eq. simpl. lia. }
  destruct (byte_val c <? 32); [done|].
  destruct (byte_val c <? utf8.RuneSelf).
  { destruct (json.string_body n r0) as [[? ?]|] eqn:E; [apply IH in E|done].
    simpl in H. simplify_eq. simpl. lia. }
  destruct (utf8.DecodeRune (c :: r0)) as [rr size] eqn:D.
  apply DecodeRune_size in D as [Hs1 Hs2]; [|done].
  destruct (json.string_body n (drop size _)) as [[? ?]|] eqn:E; [apply IH in E|done].
  simpl in H. simplify_eq. rewrite length_drop in E. lia.
Qed.

Lemma literal_length word s r :
  json.literal word s = Some r -> (length r + length word = length s)%nat.
Proof.
  revert s. induction word as [|w word IH]; intros s; simpl.
  - intros [= ->]. lia.
  - destruct s as [|c s]; [done|]. destruct (Ascii.eqb c w); [|done].
    intros H. apply IH in H. simpl. lia.
Qed.

Lemma span_digits_length s : (length (json.span_digits s).2 <= length s)%nat.
Proof.
  induction s as [|c s IH]; simpl; [done|].
  destruct (json.isDigit c); [|simpl; lia].
  destruct (json.span_digits s). simpl in *. lia.
Qed.

Lemma number_exp_length s x r :
  json.number_exp s = Some (x, r) -> (length r <= length s)%nat.
Proof.
  unfold json.number_exp. destruct s as [|c s]; [by intros [= <- <-]|].
  destruct (_ || _); [|by intros [= <- <-]].
  destruct s as [|sg s]; [done|]. destruct (_ || _).
  - destruct s as [|d s]; [done|]. destruct (json.isDigit d); [|done].
    pose proof (span_digits_length s). destruct (json.span_digits s).
    intros [= <- <-]. simpl in *. lia.
  - destruct (json.isDigit sg); [|done].
    pose proof (span_digits_length s). destruct (json.span_digits s).
    intros [= <- <-]. simpl in *. lia.
Qed.

Lemma number_frac_length s x r :
  json.number_frac s = Some (x, r) -> (length r <= length s)%nat.
Proof.
  unfold json.number_frac. destruct s as [|c s]; [by intros [= <- <-]|].
  destruct (byte_val c =? 46); [|apply number_exp_length].
  destruct s as [|d s]; [done|]. destruct (json.isDigit d); [|done].
  pose proof (span_digits_length s). destruct (json.span_digits s) as [ds rest].
  destruct (json.number_exp rest) as [[e rest']|] eqn:E; [|done].
  apply number_exp_length in E. simpl. intros [= <- <-]. simpl in *. lia.
Qed.

Lemma number_int_length s x r :
  json.number_int s = Some (x, r) -> (length r < length s)%nat.
Proof.
  unfold json.number_int. destruct s as [|c s]; [done|].
  destruct (byte_val c =? 48).
  - destruct (json.number_frac s) as [[f rest]|] eqn:E; [|done].
    apply number_frac_length in E. simpl. intros [= <- <-]. lia.
  - destruct (between 49 57 _); [|done].
    pose proof (span_digits_length s). destruct (json.span_digits s) as [ds rest].
    destruct (json.number_frac rest) as [[f rest']|] eqn:E; [|done].
    apply number_frac_length in E. simpl. intros [= <- <-]. simpl in *. lia.
Qed.

Lemma number_length s x r :
  json.number s = Some (x, r) -> (length r < length s)%nat.
Proof.
  unfold json.number. destruct s as [|c s]; [done|].
  destruct (byte_val c =? 45); [|apply number_int_length].
  destruct (json.number_int s) as [[f rest]|] eqn:E; [|done].
  apply number_int_length in E. simpl. intros [= <- <-]. lia.
Qed.

Lemma parse_scalar_length s v r :
  json.parse_scalar s = Some (v, r) -> (length r < length s)%nat.
Proof.
  unfold json.parse_scalar. destruct s as [|c s]; [done|]. cbv zeta.
  destruct (byte_val c =? 34).
  { destruct (json.string_body _ s) as [[x rest]|] eqn:E; [|done].
    apply string_body_length in E. simpl. intros [= <- <-]. lia. }
  repeat match goal with
         | |- (if ?b then _ else _) = _ -> _ => destruct b
         end.
  1-3: destruct (json.literal _ (c :: s)) as [rest|] eqn:E; [|done];
       apply literal_length in E; simpl in *; intros [= <- <-]; lia.
  destruct (json.number (c :: s)) as [[x rest]|] eqn:E; [|done].
  apply number_length in E. simpl in *. intros [= <- <-]. lia.
Qed.

(** Every reader consumes at least one byte. *)
Lemma parse_length n :
  (forall s v r, json.parse_value n s = Some (v, r) -> (length r < length s)%nat) /\
  (forall s v r, json.parse_elements n s = Some (v, r) -> (length r < length s)%nat) /\
  (forall s v r, json.parse_members n s = Some (v, r) -> (length r < length s)%nat).
Proof.
  induction n as [|n (IHv & IHe & IHm)]; [done|]. repeat split; intros s v r H.
  - destruct s as [|c r0]; [done|].
    cbn [json.parse_value] in H. cbv zeta in H.
    destruct (byte_val c =? 123).
    { destruct (json.skip_space r0) as [|c' r'] eqn:Hs; [done|].
      apply skip_space_cons_length in Hs.
      destruct (byte_val c' =? 125); [simplify_eq; simpl; lia|].
      destruct (json.parse_members n (c' :: r')) as [[ms rest]|] eqn:E; [|done].
      apply IHm in E. simpl in *. simplify_eq. lia. }
    destruct (byte_val c =? 91).
    { destruct (json.skip_space r0) as [|c' r'] eqn:Hs; [done|].
      apply skip_space_cons_length in Hs.
      destruct (byte_val c' =? 93); [simplify_eq; simpl; lia|].
      destruct (json.parse_elements n (c' :: r')) as [[vs rest]|] eqn:E; [|done].
      apply IHe in E. simpl in *. simplify_eq. lia. }
    by apply parse_scalar_length in H.
  - cbn [json.parse_elements] in H.
    destruct (json.parse_value n s) as [[v0 rest]|] eqn:E; [|done].
    apply IHv in E. cbn [mbind option_bind] in H.
    destruct (json.skip_space rest) as [|c r1] eqn:Hs; [done|].
    apply skip_space_cons_length in Hs.
    destruct (byte_val c =? 44).
    + pose proof (skip_space_length r1).
      destruct (json.parse_elements n (json.skip_space r1)) as [[vs rest']|] eqn:E'; [|done].
      apply IHe in E'. simpl in H. simplify_eq. lia.
    + destruct (byte_val c =? 93); [|done]. simplify_eq. lia.
  - destruct s as [|q r0]; [done|]. cbn [json.parse_members] in H.
    destruct (byte_val q =? 34); [|done].
    destruct (json.string_body (length r0) r0) as [[key rest]|] eqn:E; [|done].
    apply string_body_length in E. cbn [mbind option_bind] in H.
    destruct (json.skip_space rest) as [|c r1] eqn:Hs; [done|].
    apply skip_space_cons_length in Hs.
    destruct (byte_val c =? 58); [|done].
    pose proof (skip_space_length r1).
    destruct (json.parse_value n (json.skip_space r1)) as [[v0 rest1]|] eqn:E1; [|done].
    apply IHv in E1. cbn [mbind option_bind] in H.
    destruct (json.skip_space rest1) as [|c' r2] eqn:Hs1; [done|].
    apply skip_space_cons_length in Hs1.
    destruct (byte_val c' =? 44).
    + pose proof (skip_space_length r2).
      destruct (json.parse_members n (json.skip_space r2)) as [[ms rest2]|] eqn:E2; [|done].
      apply IHm in E2. simpl in H. simplify_eq. simpl. lia.
    + destruct (byte_val c' =? 125); [|done]. simplify_eq. simpl. lia.
Qed.

(** Whatever a reader returns with some fuel, it returns with fuel twice
    the length of its input (and one more for the elements of an array). *)
Lemma parse_fuel n :
  (forall s x, json.parse_value n s = Some x ->
     json.parse_value (2 * length s) s = Some x) /\
  (forall s x, json.parse_elements n s = Some x ->
     json.parse_elements (2 * length s + 1) s = Some x) /\
  (forall s x, json.parse_members n s = Some x ->
     json.parse_members (2 * length s) s = Some x).
Proof.
  induction n as [|n (IHv & IHe & IHm)]; [done|].
  pose proof (parse_length n) as (Lv & Le & Lm).
  repeat split; intros s x H.
  - destruct s as [|c r0]; [done|].
    replace (2 * length (c :: r0))%nat with (S (2 * length r0 + 1)) by (simpl; lia).
    cbn [json.parse_value] in H |- *. cbv zeta in H |- *.
    destruct (byte_val c =? 123).
    { destruct (json.skip_space r0) as [|c' r'] eqn:Hs; [done|].
      apply skip_space_cons_length in Hs.
      destruct (byte_val c' =? 125); [done|].
      destruct (json.parse_members n (c' :: r')) as [[ms rest]|] eqn:E; [|done].
      apply IHm in E. rewrite (proj2 (proj2 (parse_mono _)) _ _ E); [done|simpl; lia]. }
    destruct (byte_val c =? 91).
    { destruct (json.skip_space r0) as [|c' r'] eqn:Hs; [done|].
      apply skip_space_cons_length in Hs.
      destruct (byte_val c' =? 93); [done|].
      destruct (json.parse_elements n (c' :: r')) as [[vs rest]|] eqn:E; [|done].
      apply IHe in E. rewrite (proj1 (proj2 (parse_mono _)) _ _ E); [done|simpl; lia]. }
    done.
  - replace (2 * length s + 1)%nat with (S (2 * length s)) by lia.
    cbn [json.parse_elements] in H |- *.
    destruct (json.parse_value n s) as [[v0 rest]|] eqn:E; [|done].
    pose proof (Lv _ _ _ E) as Hl. apply IHv in E. rewrite E.
    cbn [mbind option_bind] in H |- *.
    destruct (json.skip_space rest) as [|c r1] eqn:Hs; [done|].
    apply skip_space_cons_length in Hs.
    destruct (byte_val c =? 44); [|done].
    pose proof (skip_space_length r1).
    destruct (json.parse_elements n (json.skip_space r1)) as [[vs rest']|] eqn:E'; [|done].
    apply IHe in E'. rewrite (proj1 (proj2 (parse_mono _)) _ _ E'); [done|lia].
  - destruct s as [|q r0]; [done|].
    replace (2 * length (q :: r0))%nat with (S (2 * length r0 + 1)) by (simpl; lia).
    cbn [json.parse_members] in H |- *.
    destruct (byte_val q =? 34); [|done].
    destruct (json.string_body (length r0) r0) as [[key rest]|] eqn:E; [|done].
    apply string_body_length in E. cbn [mbind option_bind] in H |- *.
    destruct (json.skip_space rest) as [|c r1] eqn:Hs; [done|].
    apply skip_space_cons_length in Hs.
    destruct (byte_val c =? 58); [|done].
    pose proof (skip_space_length r1).
    destruct (json.parse_value n (json.skip_space r1)) as [[v0 rest1]|] eqn:E1; [|done].
    pose proof (Lv _ _ _ E1) as Hl1. apply IHv in E1.
    rewrite (proj1 (parse_mono _) _ _ E1) by lia.
    cbn [mbind option_bind] in H |- *.
    destruct (json.skip_space rest1) as [|c' r2] eqn:Hs1; [done|].
    apply skip_space_cons_length in Hs1.
    destruct (byte_val c' =? 44); [|done].
    pose proof (skip_space_length r2).
    destruct (json.parse_members n (json.skip_space r2)) as [[ms rest2]|] eqn:E2; [|done].
    apply IHm in E2. rewrite (proj2 (proj2 (parse_mono _)) _ _ E2); [done|lia].
Qed.

(** [parse] does not depend on its fuel: a text that reads as a value with
    any amount of fuel is accepted by [parse] with that value. *)
Lemma parse_fuel_enough n data v rest :
  json.parse_value n (json.skip_space data) = Some (v, rest) ->
  json.skip_space rest = [] ->
  json.parse data = Some v.
Proof.
  intros H Hr. unfold json.parse.
  apply (proj1 (parse_fuel n)) in H.
  rewrite (proj1 (parse_mono _) _ _ H).
  - cbn [mbind option_bind]. by rewrite Hr.
  - pose proof (skip_space_length data). lia.
Qed.

(** The same for a string literal: fuel equal to the length of the input
    is enough. *)
Lemma string_body_fuel n s x :
  json.string_body n s = Some x -> json.string_body (length s) s = Some x.
Proof.
  revert s x. induction n as [|n IH]; intros s x H; [done|].
  destruct s as [|c r0]; [done|]. simpl length.
  cbn [json.string_body] in H |- *. cbv zeta in H |- *.
  assert (Hd : forall k, (1 <= k)%nat -> (length (drop k (c :: r0)) <= length r0)%nat).
  { intros k Hk. rewrite length_drop. simpl. lia. }
  assert (Hd' : (length (drop 6 (drop 6 (c :: r0))) <= length r0)%nat).
  { rewrite !length_drop. simpl. lia. }
  assert (Hs : (1 <= (utf8.DecodeRune (c :: r0)).2)%nat).
  { destruct (utf8.DecodeRune (c :: r0)) as [rr size] eqn:D.
    apply DecodeRune_size in D; [simpl; lia|done]. }
  repeat first
    [ exact H
    | discriminate H
    | match type of H with
      | (if ?b then _ else _) = Some _ => destruct b eqn:?
      | match ?l with [] => _ | _ :: _ => _ end = Some _ => destruct l eqn:?
      | match ?o with Some _ => _ | None => _ end = Some _ => destruct o eqn:?
      | (let '(_, _) := ?p in _) = Some _ => destruct p eqn:?
      | mbind _ (json.string_body n ?a) = Some _ =>
        let E := fresh "E" in
        destruct (json.string_body n a) as [[? ?]|] eqn:E; [|discriminate H];
        apply IH in E; rewrite (string_body_mono _ _ _ E)
      | mbind _ ?o = Some _ => destruct o; [|discriminate H]
      end; cbn [mbind option_bind] in H |- * ].
  all: try (apply Hd; simpl in Hs; lia); try exact Hd'.
  all: try (subst; simpl in *; lia).
Qed.

(** The loops of [strings] that run on fuel never run out of it: any two
    amounts of fuel that are at least the length of the string give the
    same result. *)
Lemma TrimLeftFunc_loop_fuel f n m s :
  (length s <= n)%nat -> (length s <= m)%nat ->
  strings.TrimLeftFunc_loop n s f = strings.TrimLeftFunc_loop m s f.
Proof.
  revert m s. induction n as [|n IH]; intros m s Hn Hm.
  - destruct s; [|simpl in Hn; lia]. by destruct m.
  - destruct m as [|m]; [destruct s; [done|simpl in Hm; lia]|].
    destruct s as [|c s']; [done|]. cbn [strings.TrimLeftFunc_loop].
    destruct (utf8.DecodeRune (c :: s')) as [r size] eqn:D.
    apply DecodeRune_size in D as [H1 _]; [|done].
    destruct (f r); [|done]. apply IH; rewrite length_drop; simpl in *; lia.
Qed.

Lemma find_start_bound p lim steps start :
  start < Z.of_nat (length p) ->
  utf8.find_start p lim steps start < Z.of_nat (length p).
Proof.
  revert start. induction steps as [|k IH]; intros start H; simpl; [done|].
  destruct (start <? Z.of_nat lim); [done|].
  destruct (utf8.RuneStart _); [done|]. apply IH. lia.
Qed.

Lemma DecodeLastRune_size p r size :
  p ≠ [] -> utf8.DecodeLastRune p = (r, size) -> (1 <= size <= length p)%nat.
Proof.
  intros Hp. unfold utf8.DecodeLastRune.
  assert (Hl : (1 <= length p)%nat) by (destruct p; [done|simpl; lia]).
  destruct (length p =? 0)%nat eqn:E; [apply Nat.eqb_eq in E; lia|].
  destruct (utf8.at_ _ _ <? _); [intros [= <- <-]; lia|].
  set (start := Z.to_nat (Z.max (utf8.find_start p (length p - utf8.UTFMax) utf8.UTFMax
                                   (Z.of_nat (length p) - 2)) 0)).
  assert (Hs : (start < length p)%nat).
  { pose proof (find_start_bound p (length p - utf8.UTFMax) utf8.UTFMax
                  (Z.of_nat (length p) - 2)). subst start. lia. }
  destruct (utf8.DecodeRune (drop start p)) as [r' size'] eqn:D.
  apply DecodeRune_size in D as [H1 H2].
  - rewrite length_drop in H2.
    destruct (negb _); intros [= <- <-]; lia.
  - intros Hd. apply (f_equal length) in Hd. rewrite length_drop in Hd. simpl in Hd. lia.
Qed.

Lemma lastIndexFunc_loop_fuel f s n m i :
  (i <= n)%nat -> (i <= m)%nat -> (i <= length s)%nat ->
  strings.lastIndexFunc_loop n s f i = strings.lastIndexFunc_loop m s f i.
Proof.
  revert m i. induction n as [|n IH]; intros m i Hn Hm Hi.
  - assert (i = 0%nat) as -> by lia. by destruct m.
  - destruct m as [|m]; [by assert (i = 0%nat) as -> by lia|].
    cbn [strings.lastIndexFunc_loop].
    destruct (i =? 0)%nat eqn:E; [done|]. apply Nat.eqb_neq in E.
    destruct (utf8.DecodeLastRune (take i s)) as [r size] eqn:D.
    apply DecodeLastRune_size in D as [H1 H2].
    + destruct (negb (f r)); [done|]. apply IH; lia.
    + intros Ht. apply (f_equal length) in Ht. rewrite length_take in Ht.
      simpl in Ht. lia.
Qed.

Lemma foldName_loop_fuel n m s :
  (length s <= n)%nat -> (length s <= m)%nat ->
  json.foldName_loop n s = json.foldName_loop m s.
Proof.
  revert m s. induction n as [|n IH]; intros m s Hn Hm.
  - destruct s; [|simpl in Hn; lia]. by destruct m.
  - destruct m as [|m]; [destruct s; [done|simpl in Hm; lia]|].
    destruct s as [|c s']; [done|]. cbn [json.foldName_loop].
    destruct (byte_val c <? utf8.RuneSelf).
    + f_equal. apply IH; simpl in *; lia.
    + destruct (utf8.DecodeRune (c :: s')) as [r size] eqn:D.
      apply DecodeRune_size in D as [H1 _]; [|done].
      f_equal. apply IH; rewrite length_drop; simpl in *; lia.
Qed.

(** ** The user map, piece by piece *)

Lemma valid_pairs_app m1 m2 :
  valid_pairs (m1 ++ ","%char :: m2) = valid_pairs m1 ++ valid_pairs m2.
Proof. unfold valid_pairs. by rewrite Split_app, omap_app. Qed.

Lemma emitted_app l m1 m2 :
  emitted l (m1 ++ ","%char :: m2) = emitted l m1 ++ emitted l m2.
Proof. unfold emitted. by rewrite valid_pairs_app, List.filter_app. Qed.

(** The output for a user map is the output for what stands before a comma
    followed by the output for what stands after it. *)
Lemma parseUsers_app m1 m2 a :
  parseUsers (m1 ++ ","%char :: m2) a = parseUsers m1 a ++ parseUsers m2 a.
Proof.
  rewrite !parseUsers_spec. destruct (parse_assignees a) as [l|]; [|done].
  by rewrite emitted_app, map_app, concat_app.
Qed.


Lemma filter_sublist {A} (f : A -> bool) (l : list A) :
  List.filter f l `sublist_of` l.
Proof.
  induction l as [|x l IH]; simpl; [constructor|].
  destruct (f x); by constructor.
Qed.

Lemma assigned_Permutation l l' u : l' ≡ₚ l -> assigned l' u = assigned l u.
Proof.
  intros Hp. unfold assigned. apply bool_decide_ext.
  assert (Hm : map Login l' ≡ₚ map Login l) by (by apply Permutation_map).
  by rewrite Hm.
Qed.

Lemma mention_shape openID username :
  mention openID username =
  lit "<at user_id=" ++ dquote :: openID ++ dquote :: lit ">" ++ username
  ++ lit "</at> ".
Proof. reflexivity. Qed.

Lemma mention_ends openID username :
  mention openID username =
  (lit "<at user_id=" ++ dquote :: openID ++ dquote :: lit ">" ++ username
   ++ lit "</at") ++ lit "> ".
Proof.
  rewrite mention_shape. cbn [lit list_ascii_of_string app].
  do 13 f_equal. rewrite <- app_assoc. cbn [app]. do 2 f_equal.
  rewrite <- app_assoc. reflexivity.
Qed.

Lemma mention_close openID username :
  mention openID username =
  (lit "<at user_id=" ++ dquote :: openID ++ dquote :: lit ">" ++ username)
  ++ lit "</at> ".
Proof.
  rewrite mention_shape. cbn [lit list_ascii_of_string app].
  do 13 f_equal. rewrite <- app_assoc. cbn [app]. do 2 f_equal.
Qed.

(** ** The driver *)

Lemma isASCII_ReplaceAll key :
  strings.isASCII (strings.ReplaceAll key "-"%char "_"%char) = strings.isASCII key.
Proof.
  induction key as [|c key IH]; [done|]. unfold strings.isASCII, strings.ReplaceAll in *.
  simpl. rewrite IH. f_equal.
  destruct (Ascii.eqb_spec c "-"%char) as [->|_]; reflexivity.
Qed.

(** An early exit of [main] is a fatal error. *)
Lemma main_exchange_early upper w o :
  main_exchange upper w = inl o -> exists stderr, o = Fatal stderr.
Proof.
  unfold main_exchange. intros H.
  repeat match type of H with
         | (if ?c then _ else _) = _ => destruct c
         | match ?x with inl _ => _ | inr _ => _ end = _ => destruct x
         | match ?x with Some _ => _ | None => _ end = _ => destruct x
         | (let '(_, _) := ?p in _) = _ => destruct p
         end; simplify_eq; eauto.
Qed.

(** * The properties the specification states *)

(** C1. The mention tokens come out in the order in which their pairs are
    written in the user map, whatever the order of the assignee records:
    the output is the tokens of a sublist of the map's valid pairs, and the
    assignee records only decide which pairs are kept, so listing them in
    another order changes nothing. *)
Theorem parseUsers_mapping_order (userMaps assigneesJSON : gostring)
    (assignees : list Assignee) :
  parse_assignees assigneesJSON = Some assignees ->
  parseUsers userMaps assigneesJSON = concat (map token (emitted assignees userMaps))
  /\ emitted assignees userMaps `sublist_of` valid_pairs userMaps
  /\ forall assignees', assignees' ≡ₚ assignees ->
       emitted assignees' userMaps = emitted assignees userMaps.
Proof.
  intros H. split; [|split].
  - by rewrite parseUsers_spec, H.
  - apply filter_sublist.
  - intros l' Hp. unfold emitted. apply List.filter_ext.
    intros p. by apply assigned_Permutation.
Qed.

(** The example of C1: mapping [a:1,b:2,c:3], assignees [b] then [a]. *)
Lemma parseUsers_mapping_order_example :
  parseUsers (lit "a:1,b:2,c:3") (raw "[{'login':'b'},{'login':'a'}]")
  = raw "<at user_id='1'>a</at> <at user_id='2'>b</at> ".
Proof.
  destruct (parseUsers_mapping_order (lit "a:1,b:2,c:3")
              (raw "[{'login':'b'},{'login':'a'}]")
              [{| Login := lit "b" |}; {| Login := lit "a" |}]) as [H _].
  - vm_compute. reflexivity.
  - rewrite H. vm_compute. reflexivity.
Defined.



(** C3. When the assignees text decodes neither as an array of records nor
    as a single record, the result is the empty string.  [parseUsers]
    returns a string in every case: it has no error result. *)
Theorem parseUsers_malformed (userMaps assigneesJSON : gostring) :
  is_Some (Unmarshal_Assignees assigneesJSON []).2 ->
  is_Some (Unmarshal_Assignee assigneesJSON zero_Assignee).2 ->
  parseUsers userMaps assigneesJSON = [].
Proof.
  intros [e He] [e2 He2]. rewrite parseUsers_spec. unfold parse_assignees.
  destruct (Unmarshal_Assignees assigneesJSON []) as [l err].
  destruct (Unmarshal_Assignee assigneesJSON zero_Assignee) as [a err2].
  simpl in He, He2. by subst.
Qed.

Lemma parseUsers_malformed_example :
  parseUsers (lit "a:1,b:2") (raw "{not json") = [].
Proof.
  apply parseUsers_malformed; vm_compute; eauto.
Defined.



(** C5. Every token has the shape [<at user_id="ID">USERNAME</at> ], with
    one trailing space, and the ID and the username are the trimmed parts
    of the pair, byte for byte: nothing is escaped. *)
Theorem parseUsers_token_shape (userMaps assigneesJSON : gostring) :
  exists pairs : list (gostring * gostring),
    pairs `sublist_of` valid_pairs userMaps
    /\ parseUsers userMaps assigneesJSON =
       concat (map (fun p : gostring * gostring =>
                      lit "<at user_id=" ++ dquote :: p.2 ++ dquote :: lit ">"
                      ++ p.1 ++ lit "</at> ") pairs).
Proof.
  rewrite parseUsers_spec. destruct (parse_assignees assigneesJSON) as [l|].
  - exists (emitted l userMaps). split; [apply filter_sublist|done].
  - exists []. split; [apply sublist_nil_l|done].
Qed.

(** A quote and angle brackets in the username and in the ID come out as
    they are. *)
Lemma parseUsers_token_shape_example :
  parseUsers (raw "u<1:i'd>&") (raw "[{'login':'u<1'}]")
  = lit "<at user_id=" ++ dquote :: (lit "i" ++ dquote :: lit "d>&") ++ dquote
    :: lit ">" ++ lit "u<1" ++ lit "</at> ".
Proof. vm_compute. reflexivity. Qed.

(** C6. When a username stands in the user map more than once and is in
    LoginSet, every occurrence has its own token: among the pairs a token is
    written for, those of that username are all the valid pairs of that
    username, each with the ID of its occurrence. *)
Theorem parseUsers_duplicates (userMaps assigneesJSON : gostring)
    (assignees : list Assignee) (username : gostring) :
  parse_assignees assigneesJSON = Some assignees ->
  index_loginSet (build_loginSet assignees) username = true ->
  parseUsers userMaps assigneesJSON = concat (map token (emitted assignees userMaps))
  /\ List.filter (fun p : gostring * gostring => bool_decide (p.1 = username))
                 (emitted assignees userMaps)
     = List.filter (fun p : gostring * gostring => bool_decide (p.1 = username))
                   (valid_pairs userMaps).
Proof.
  intros H Hu. split; [by rewrite parseUsers_spec, H|].
  rewrite build_loginSet_lookup in Hu. unfold emitted.
  induction (valid_pairs userMaps) as [|p l IH]; simpl; [done|].
  destruct (assigned assignees p.1) eqn:Hp; simpl.
  - by rewrite IH.
  - rewrite IH. case_bool_decide as Heq; [|done]. congruence.
Qed.

Lemma parseUsers_duplicates_example :
  parseUsers (lit "a:1,b:2,a:3") (raw "[{'login':'a'}]")
  = raw "<at user_id='1'>a</at> <at user_id='3'>a</at> ".
Proof.
  destruct (parseUsers_duplicates (lit "a:1,b:2,a:3") (raw "[{'login':'a'}]")
              [{| Login := lit "a" |}] (lit "a")) as [H _].
  - vm_compute. reflexivity.
  - vm_compute. reflexivity.
  - rewrite H. vm_compute. reflexivity.
Defined.

(** C7. When no valid pair of the user map has its username in LoginSet,
    and so whenever LoginSet is empty, the result is the empty string. *)
Theorem parseUsers_no_match (userMaps assigneesJSON : gostring)
    (assignees : list Assignee) :
  parse_assignees assigneesJSON = Some assignees ->
  (forall p, p ∈ valid_pairs userMaps ->
     index_loginSet (build_loginSet assignees) p.1 = false) ->
  parseUsers userMaps assigneesJSON = [].
Proof.
  intros H Hno. rewrite parseUsers_spec, H. unfold emitted.
  induction (valid_pairs userMaps) as [|p l IH]; simpl; [done|].
  rewrite <- build_loginSet_lookup, (Hno p) by left.
  apply IH. intros q Hq. apply Hno. by right.
Qed.

Lemma parseUsers_no_match_example :
  parseUsers (lit "a:1,b:2") (raw "[{'login':''},{'login':'c'}]") = []
  /\ parseUsers (lit "a:1,b:2") (raw "[]") = [].
Proof.
  split.
  - apply (parseUsers_no_match _ _ [{| Login := [] |}; {| Login := lit "c" |}]).
    + vm_compute. reflexivity.
    + intros p Hp. vm_compute in Hp.
      repeat (apply elem_of_cons in Hp as [->|Hp]; [vm_compute; reflexivity|]).
      by apply elem_of_nil in Hp.
  - apply (parseUsers_no_match _ _ []).
    + vm_compute. reflexivity.
    + intros p _. reflexivity.
Defined.

(** C8. [getEnv] looks the key up under its wrapped name first, [INPUT_]
    followed by the key in upper case with hyphens turned into
    underscores, and under the plain upper-case name second; the first
    value that is not empty is returned, and the empty string when both
    are empty.  For an ASCII key the two names are spelled out. *)

Theorem getEnv_lookup_order (Map_unicode_ToUpper : gostring -> gostring)
    (env : gmap gostring gostring) (key : gostring) :
  let wrapped :=
    Getenv env (lit "INPUT_" ++ ToUpper Map_unicode_ToUpper
                                  (strings.ReplaceAll key "-"%char "_"%char)) in
  let plain := Getenv env (ToUpper Map_unicode_ToUpper key) in
  (wrapped ≠ [] -> getEnv Map_unicode_ToUpper env key = wrapped)
  /\ (wrapped = [] -> getEnv Map_unicode_ToUpper env key = plain)
  /\ (wrapped = [] -> plain = [] -> getEnv Map_unicode_ToUpper env key = [])
  /\ (strings.isASCII key = true ->
      inputKey Map_unicode_ToUpper key =
        lit "INPUT_" ++ map strings.upper_byte
                          (strings.ReplaceAll key "-"%char "_"%char)
      /\ upperKey Map_unicode_ToUpper key = map strings.upper_byte key).
Proof.
  cbv zeta. unfold getEnv, inputKey, upperKey. repeat split.
  - intros H. by rewrite bool_decide_eq_false_2.
  - intros H. by rewrite H.
  - intros H H'. by rewrite H.
  - unfold ToUpper. by rewrite isASCII_ReplaceAll, H.
  - unfold ToUpper. by rewrite H.
Qed.

Lemma getEnv_lookup_order_example :
  getEnv id {[lit "INPUT_BOT_TOKEN" := lit "t1"; lit "BOT_TOKEN" := lit "t2"]}
         (lit "bot_token") = lit "t1"
  /\ getEnv id {[lit "USER-MAPS" := lit "a:1"; lit "USER_MAPS" := lit "b:2"]}
            (lit "user-maps") = lit "a:1"
  /\ getEnv id {[lit "OTHER" := lit "x"]} (lit "msg_type") = []
  /\ inputKey id (lit "user-maps") = lit "INPUT_USER_MAPS".
Proof.
  split; [|split; [|split]].
  - destruct (getEnv_lookup_order id
      {[lit "INPUT_BOT_TOKEN" := lit "t1"; lit "BOT_TOKEN" := lit "t2"]}
      (lit "bot_token")) as (H & _).
    rewrite H; vm_compute; [reflexivity|discriminate].
  - destruct (getEnv_lookup_order id
      {[lit "USER-MAPS" := lit "a:1"; lit "USER_MAPS" := lit "b:2"]}
      (lit "user-maps")) as (_ & H & _).
    rewrite H; vm_compute; reflexivity.
  - destruct (getEnv_lookup_order id {[lit "OTHER" := lit "x"]}
      (lit "msg_type")) as (_ & _ & H & _).
    apply H; vm_compute; reflexivity.
  - destruct (getEnv_lookup_order id ∅ (lit "user-maps")) as (_ & _ & _ & H).
    destruct H as [H _]; [reflexivity|]. rewrite H. reflexivity.
Defined.

(** C9. The run ends in success, with the notice and exit status 0, exactly
    when the exchange gave HTTP status 200 and a response whose code is 0.
    With any other status or code the run ends in a fatal error whose
    message on standard error carries the code and the message of the
    response, and the exit status is 1. *)
Theorem main_success_iff (Map_unicode_ToUpper : gostring -> gostring)
    (w : World) :
  (main Map_unicode_ToUpper w
     = Success (lit "::notice::Message sent successfully" ++ newline)
   <-> exists StatusCode feishuResp,
         main_exchange Map_unicode_ToUpper w = inr (StatusCode, feishuResp)
         /\ StatusCode = 200 /\ Code feishuResp = 0)
  /\ (exit_status (main Map_unicode_ToUpper w) = 0
      <-> main Map_unicode_ToUpper w
          = Success (lit "::notice::Message sent successfully" ++ newline))
  /\ (forall StatusCode feishuResp,
        main_exchange Map_unicode_ToUpper w = inr (StatusCode, feishuResp) ->
        ~ (StatusCode = 200 /\ Code feishuResp = 0) ->
        main Map_unicode_ToUpper w
          = Fatal (lit "::error::Request failed with code "
                   ++ itoa (Code feishuResp) ++ lit ": " ++ Msg feishuResp
                   ++ newline)
        /\ exit_status (main Map_unicode_ToUpper w) = 1).
Proof.
  unfold main.
  destruct (main_exchange Map_unicode_ToUpper w) as [o|[st resp]] eqn:E.
  - destruct (main_exchange_early _ _ _ E) as [err ->]. split; [|split].
    + split; [done|]. by intros (? & ? & ? & _).
    + split; done.
    + done.
  - unfold check_response, StatusOK.
    destruct (Z.eqb_spec st 200) as [Hst|Hst];
      destruct (Z.eqb_spec (Code resp) 0) as [Hc|Hc]; simpl.
    + split; [|split].
      * split; [eauto|done].
      * done.
      * intros ? ? [= <- <-] Hn. exfalso. by apply Hn.
    + split; [|split].
      * split; [done|]. intros (? & ? & ? & ? & ?). by simplify_eq.
      * done.
      * by intros ? ? [= <- <-] _.
    + split; [|split].
      * split; [done|]. intros (? & ? & ? & ? & ?). by simplify_eq.
      * done.
      * by intros ? ? [= <- <-] _.
    + split; [|split].
      * split; [done|]. intros (? & ? & ? & ? & ?). by simplify_eq.
      * done.
      * by intros ? ? [= <- <-] _.
Qed.

Lemma main_success_iff_example :
  main id (example_world (lit "ok"))
    = Success (lit "::notice::Message sent successfully" ++ newline)
  /\ main id (example_world (lit "denied"))
     = Fatal (lit "::error::Request failed with code 19001: bad token" ++ newline)
  /\ exit_status (main id (example_world (lit "denied"))) = 1.
Proof.
  split; [|split].
  - destruct (main_success_iff id (example_world (lit "ok"))) as ([_ H] & _). apply H.
    exists 200, {| Code := 0; Msg := lit "ok" |}. by vm_compute.
  - destruct (main_success_iff id (example_world (lit "denied"))) as (_ & _ & H).
    destruct (H 200 {| Code := 19001; Msg := lit "bad token" |}) as [H1 _].
    + vm_compute. reflexivity.
    + intros [_ H']. discriminate H'.
    + rewrite H1. vm_compute. reflexivity.
  - destruct (main_success_iff id (example_world (lit "denied"))) as (_ & _ & H).
    destruct (H 200 {| Code := 19001; Msg := lit "bad token" |}) as [_ H1].
    + vm_compute. reflexivity.
    + intros [_ H']. discriminate H'.
    + exact H1.
Defined.

(** C10. The output is a concatenation of whole tokens, each ending in
    [</at> ]; so it is empty or ends in [> ], that is in exactly one
    space. *)
Theorem parseUsers_whole_tokens (userMaps assigneesJSON : gostring) :
  (exists tokens : list gostring,
     parseUsers userMaps assigneesJSON = concat tokens
     /\ Forall (fun t => exists openID username,
                  t = mention openID username
                  /\ t = (lit "<at user_id=" ++ dquote :: openID ++ dquote
                          :: lit ">" ++ username) ++ lit "</at> ") tokens)
  /\ (parseUsers userMaps assigneesJSON = []
      \/ exists s, parseUsers userMaps assigneesJSON = s ++ lit "> ").
Proof.
  assert (G : forall pairs : list (gostring * gostring),
    concat (map token pairs) = [] \/
    exists s, concat (map token pairs) = s ++ lit "> ").
  { induction pairs as [|p l IH]; [by left|]. right. cbn [map concat].
    destruct IH as [->|[s ->]].
    - rewrite app_nil_r. unfold token. rewrite mention_ends. eauto.
    - exists (token p ++ s). by rewrite app_assoc. }
  rewrite parseUsers_spec. destruct (parse_assignees assigneesJSON) as [l|].
  - split; [|apply G]. exists (map token (emitted l userMaps)). split; [done|].
    apply Forall_forall. intros t Ht. apply list_elem_of_fmap in Ht as [p [-> _] ].
    exists p.2, p.1. split; [done|]. unfold token. apply mention_close.
  - split; [|by left]. exists []. split; [done|constructor].
Qed.

(** * Further properties of the code *)

(** ** Helper lemmas *)

Lemma Join_cons p rest sep :
  rest ≠ [] -> Join (p :: rest) sep = p ++ sep :: Join rest sep.
Proof. by destruct rest. Qed.

Lemma Join_Split s sep : Join (strings.Split s sep) sep = s.
Proof.
  induction s as [|c r IH]; [done|].
  cbn [strings.Split]. destruct (Ascii.eqb_spec c sep) as [->|Hne].
  - rewrite Join_cons by apply Split_nonempty. by rewrite IH.
  - destruct (strings.Split r sep) as [|piece rest] eqn:E.
    + by destruct (Split_nonempty r sep).
    + rewrite <- IH. by destruct rest.
Qed.

Lemma Split_pieces s sep p : p ∈ strings.Split s sep -> sep ∉ p.
Proof.
  revert p. induction s as [|c r IH]; intros p.
  - cbn. intros ->%list_elem_of_singleton. apply not_elem_of_nil.
  - cbn [strings.Split]. destruct (Ascii.eqb_spec c sep) as [->|Hne].
    + intros [->|H]%elem_of_cons; [apply not_elem_of_nil|by apply IH].
    + destruct (strings.Split r sep) as [|piece rest] eqn:E.
      * by destruct (Split_nonempty r sep).
      * intros [->|H]%elem_of_cons.
        -- intros [?|H]%elem_of_cons; [done|].
           revert H. apply IH. by left.
        -- apply IH. by right.
Qed.

Lemma Split_length s sep :
  length (strings.Split s sep) = S (count_occ Ascii.ascii_dec s sep).
Proof.
  induction s as [|c r IH]; [done|].
  cbn [strings.Split count_occ]. destruct (Ascii.eqb_spec c sep) as [->|Hne].
  - destruct (Ascii.ascii_dec sep sep); [|done]. cbn. by rewrite IH.
  - destruct (Ascii.ascii_dec c sep); [done|].
    destruct (strings.Split r sep) as [|piece rest] eqn:E.
    + by destruct (Split_nonempty r sep).
    + by rewrite <- IH.
Qed.

Lemma Split_Join_pieces ps sep :
  ps ≠ [] -> (forall p, p ∈ ps -> sep ∉ p) ->
  strings.Split (Join ps sep) sep = ps.
Proof.
  induction ps as [|p rest IH]; [done|]. intros _ Hp.
  destruct rest as [|q rest].
  - cbn. apply Split_no_sep, Hp. by left.
  - rewrite Join_cons by done. rewrite Split_app.
    rewrite IH; [|done|intros p' H; apply Hp; by right].
    rewrite Split_no_sep; [done|]. apply Hp. by left.
Qed.

Lemma TrimLeftFunc_loop_drop f n s :
  exists k, strings.TrimLeftFunc_loop n s f = drop k s.
Proof.
  revert s. induction n as [|n IH]; intros s.
  - exists (length s). by rewrite drop_all.
  - destruct s as [|c r]; [by exists 0%nat|].
    cbn [strings.TrimLeftFunc_loop].
    destruct (utf8.DecodeRune (c :: r)) as [rr size].
    destruct (f rr); [|by exists 0%nat].
    destruct (IH (drop size (c :: r))) as [k ->].
    exists (size + k)%nat. by rewrite drop_drop.
Qed.

Lemma TrimRightFunc_take s f : exists k, strings.TrimRightFunc s f = take k s.
Proof. unfold strings.TrimRightFunc. by eexists. Qed.

Lemma TrimSpace_stop_take t : exists k, strings.TrimSpace_stop t = take k (rev t).
Proof.
  induction t as [|c t IH]; [by exists 0%nat|].
  cbn [strings.TrimSpace_stop].
  destruct (utf8.RuneSelf <=? byte_val c); [apply TrimRightFunc_take|].
  destruct (strings.asciiSpace (byte_val c)).
  - destruct IH as [k ->]. exists (k `min` length (rev t))%nat.
    cbn [rev]. rewrite take_app_le by lia.
    destruct (Nat.min_spec k (length (rev t))) as [[? ->]|[? ->]]; [done|].
    by rewrite !take_ge by lia.
  - exists (length (rev (c :: t))). by rewrite take_ge.
Qed.

Lemma TrimSpace_take_drop s :
  exists a b, strings.TrimSpace s = take a (drop b s).
Proof.
  induction s as [|c s IH]; [by exists 0%nat, 0%nat|].
  cbn [strings.TrimSpace].
  destruct (utf8.RuneSelf <=? byte_val c).
  - unfold strings.TrimFunc, strings.TrimLeftFunc.
    destruct (TrimLeftFunc_loop_drop unicode.IsSpace (length (c :: s)) (c :: s))
      as [b ->].
    destruct (TrimRightFunc_take (drop b (c :: s)) unicode.IsSpace) as [a ->].
    by exists a, b.
  - destruct (strings.asciiSpace (byte_val c)).
    + destruct IH as (a & b & ->). by exists a, (S b).
    + destruct (TrimSpace_stop_take (rev (c :: s))) as [a ->].
      rewrite rev_involutive. by exists a, 0%nat.
Qed.

Lemma TrimSpace_part s : exists l r, s = l ++ strings.TrimSpace s ++ r.
Proof.
  destruct (TrimSpace_take_drop s) as (a & b & ->).
  exists (take b s), (drop a (drop b s)).
  by rewrite take_drop, take_drop.
Qed.

Lemma TrimSpace_elem_of s c : c ∈ strings.TrimSpace s -> c ∈ s.
Proof.
  destruct (TrimSpace_part s) as (l & r & E). intros H.
  rewrite E, !elem_of_app. auto.
Qed.

Lemma asciiSpace_high x : 128 <= x -> strings.asciiSpace x = false.
Proof.
  intros H. unfold strings.asciiSpace, between.
  apply orb_false_iff. split; [apply andb_false_iff; right|]; lia.
Qed.

Lemma asciiSpace_IsSpace x :
  unicode.IsSpace x = false -> strings.asciiSpace x = false.
Proof.
  unfold unicode.IsSpace, strings.asciiSpace, between.
  destruct (Z.leb_spec x 255) as [H|H].
  - intros E. repeat (apply orb_false_iff in E as [E ?]).
    apply orb_false_iff. by split.
  - intros _. apply orb_false_iff. split; [apply andb_false_iff; right|]; lia.
Qed.

Lemma not_asciiSpace c f :
  f = unicode.IsSpace -> 128 <= byte_val c \/ f (byte_val c) = false ->
  strings.asciiSpace (byte_val c) = false.
Proof.
  intros -> [H|H]; [by apply asciiSpace_high|by apply asciiSpace_IsSpace].
Qed.

Lemma at_cons c r : utf8.at_ (c :: r) 0 = byte_val c.
Proof. done. Qed.

Lemma at_lookup p i c : p !! i = Some c -> utf8.at_ p i = byte_val c.
Proof. intros H. unfold utf8.at_. by rewrite nth_lookup, H. Qed.

Lemma at_drop p k j : utf8.at_ (drop k p) j = utf8.at_ p (k + j).
Proof. unfold utf8.at_. by rewrite !nth_lookup, lookup_drop. Qed.

Lemma at_take p k j : (j < k)%nat -> utf8.at_ (take k p) j = utf8.at_ p j.
Proof. intros H. unfold utf8.at_. by rewrite !nth_lookup, lookup_take_lt. Qed.

Lemma DecodeRune_ascii c r :
  byte_val c < 128 -> utf8.DecodeRune (c :: r) = (byte_val c, 1%nat).
Proof.
  intros H. unfold utf8.DecodeRune. rewrite at_cons. cbn [length Nat.ltb Nat.leb].
  unfold utf8.RuneSelf. by destruct (Z.ltb_spec (byte_val c) 128); [|lia].
Qed.

Lemma TrimLeftFunc_loop_head f n s c r :
  strings.TrimLeftFunc_loop n s f = c :: r ->
  f (utf8.DecodeRune (c :: r)).1 = false.
Proof.
  revert s. induction n as [|n IH]; intros s; [done|].
  destruct s as [|c0 r0]; [done|]. cbn [strings.TrimLeftFunc_loop].
  destruct (utf8.DecodeRune (c0 :: r0)) as [rr size] eqn:D.
  destruct (f rr) eqn:F; [apply IH|].
  intros [= <- <-]. by rewrite D.
Qed.

Lemma TrimLeftFunc_loop_first n s c r :
  strings.TrimLeftFunc_loop n s unicode.IsSpace = c :: r ->
  strings.asciiSpace (byte_val c) = false.
Proof.
  intros H%TrimLeftFunc_loop_head.
  destruct (Z.lt_ge_cases (byte_val c) 128) as [Hc|Hc].
  - rewrite DecodeRune_ascii in H by done. by apply asciiSpace_IsSpace.
  - by apply asciiSpace_high.
Qed.

Lemma take_first {A} k (l : list A) c r : take k l = c :: r -> exists r', l = c :: r'.
Proof. destruct k, l; try done. intros [= -> _]. by eexists. Qed.

Lemma TrimSpace_first s c r :
  strings.TrimSpace s = c :: r -> strings.asciiSpace (byte_val c) = false.
Proof.
  induction s as [|c0 s IH]; [done|]. cbn [strings.TrimSpace].
  destruct (utf8.RuneSelf <=? byte_val c0).
  - unfold strings.TrimFunc.
    destruct (TrimRightFunc_take (strings.TrimLeftFunc (c0 :: s) unicode.IsSpace)
                unicode.IsSpace) as [k ->].
    intros [r' H]%take_first. by apply TrimLeftFunc_loop_first in H.
  - destruct (strings.asciiSpace (byte_val c0)) eqn:E; [done|].
    destruct (TrimSpace_stop_take (rev (c0 :: s))) as [k ->].
    rewrite rev_involutive. by intros [r' [= <- _]]%take_first.
Qed.

Lemma DecodeRune_cont p r size j :
  utf8.DecodeRune p = (r, size) -> (1 <= j < size)%nat -> 128 <= utf8.at_ p j.
Proof.
  unfold utf8.DecodeRune.
  destruct (length p <? 1)%nat; [intros [= <- <-]; lia|].
  destruct (utf8.at_ p 0 <? _); [intros [= <- <-]; lia|].
  destruct (utf8.first _) as [[[sz lo] hi]|] eqn:F; [|intros [= <- <-]; lia].
  apply first_spec in F as [Hsz Hlo].
  destruct (length p <? sz)%nat; [intros [= <- <-]; lia|].
  destruct (between lo hi (utf8.at_ p 1)) eqn:B1; [|intros [= <- <-]; lia].
  cbn [negb]. apply andb_true_iff in B1 as [B1 _]. apply Z.leb_le in B1.
  destruct (sz <=? 2)%nat.
  { intros [= <- <-] Hj. by assert (j = 1%nat) as -> by lia; lia. }
  destruct (between 128 191 (utf8.at_ p 2)) eqn:B2; [|intros [= <- <-]; lia].
  cbn [negb]. apply andb_true_iff in B2 as [B2 _]. apply Z.leb_le in B2.
  destruct (sz <=? 3)%nat.
  { intros [= <- <-] Hj.
    assert (j = 1 \/ j = 2)%nat as [-> | ->] by lia; lia. }
  destruct (between 128 191 (utf8.at_ p 3)) eqn:B3; [|intros [= <- <-]; lia].
  cbn [negb]. apply andb_true_iff in B3 as [B3 _]. apply Z.leb_le in B3.
  intros [= <- <-] Hj.
  assert (j = 1 \/ j = 2 \/ j = 3)%nat as [-> | [-> | ->] ] by lia; lia.
Qed.

Lemma DecodeLastRune_ascii_start p r size :
  p ≠ [] -> utf8.DecodeLastRune p = (r, size) ->
  utf8.at_ p (length p - size) < 128 ->
  size = 1%nat /\ r = utf8.at_ p (length p - 1).
Proof.
  intros Hp. unfold utf8.DecodeLastRune.
  assert (Hl : (1 <= length p)%nat) by (destruct p; [done|simpl; lia]).
  destruct (length p =? 0)%nat eqn:E; [apply Nat.eqb_eq in E; lia|].
  unfold utf8.RuneSelf.
  destruct (Z.ltb_spec (utf8.at_ p (length p - 1)) 128) as [Hb|Hb];
    [by intros [= <- <-]|].
  set (start := Z.to_nat (Z.max (utf8.find_start p (length p - utf8.UTFMax) utf8.UTFMax
                                   (Z.of_nat (length p) - 2)) 0)).
  assert (Hs : (start < length p)%nat).
  { pose proof (find_start_bound p (length p - utf8.UTFMax) utf8.UTFMax
                  (Z.of_nat (length p) - 2)). subst start. lia. }
  destruct (utf8.DecodeRune (drop start p)) as [r' size'] eqn:D.
  destruct (start + size' =? length p)%nat eqn:En; cbn [negb].
  - apply Nat.eqb_eq in En. intros [= <- <-] Ha.
    replace (length p - size')%nat with start in Ha by lia.
    destruct (drop start p) as [|c0 q] eqn:Ed.
    { apply (f_equal length) in Ed. rewrite length_drop in Ed. simpl in Ed. lia. }
    assert (utf8.at_ p start = byte_val c0) as Hc.
    { replace start with (start + 0)%nat by lia. by rewrite <- at_drop, Ed. }
    rewrite DecodeRune_ascii in D by lia. simplify_eq.
    replace (length p - 1)%nat with start in Hb by lia. lia.
  - intros [= <- <-] Ha. lia.
Qed.

Lemma lastIndexFunc_loop_spec f s n i0 :
  (i0 <= length s)%nat ->
  strings.lastIndexFunc_loop n s f i0 = -1
  \/ exists i r size,
       (0 < i <= length s)%nat /\ utf8.DecodeLastRune (take i s) = (r, size)
       /\ f r = false
       /\ strings.lastIndexFunc_loop n s f i0 = Z.of_nat (i - size).
Proof.
  revert i0. induction n as [|n IH]; intros i0 Hi; [by left|].
  cbn [strings.lastIndexFunc_loop].
  destruct (i0 =? 0)%nat eqn:E; [by left|]. apply Nat.eqb_neq in E.
  destruct (utf8.DecodeLastRune (take i0 s)) as [r size] eqn:D.
  destruct (f r) eqn:F; cbn [negb].
  - apply IH. lia.
  - right. exists i0, r, size. repeat split; [lia|done..].
Qed.

Lemma last_take_lookup {A} k (l : list A) :
  (0 < k <= length l)%nat -> last (take k l) = l !! (k - 1)%nat.
Proof.
  intros H. rewrite last_lookup, length_take.
  replace (k `min` length l)%nat with k by lia.
  rewrite lookup_take_lt by lia. f_equal. lia.
Qed.

Lemma TrimRightFunc_last s f c :
  last (strings.TrimRightFunc s f) = Some c ->
  128 <= byte_val c \/ f (byte_val c) = false.
Proof.
  unfold strings.TrimRightFunc, strings.lastIndexFunc.
  destruct (lastIndexFunc_loop_spec f s (length s) (length s))
    as [-> | (i & r & size & Hi & D & Hf & ->)]; [done|done|].
  assert (Hsz : (1 <= size <= i)%nat).
  { apply DecodeLastRune_size in D.
    - rewrite length_take in D. lia.
    - intros Ht. apply (f_equal length) in Ht. rewrite length_take in Ht.
      simpl in Ht. lia. }
  set (idx := (i - size)%nat). assert (Hidx : (idx < i)%nat) by (subst idx; lia).
  replace (0 <=? Z.of_nat idx) with true by (symmetry; apply Z.leb_le; lia).
  rewrite Nat2Z.id. cbn [andb]. unfold utf8.RuneSelf.
  destruct (Z.leb_spec 128 (utf8.at_ s idx)) as [Hb|Hb].
  - destruct (utf8.DecodeRune (drop idx s)) as [r' wid] eqn:D'.
    assert (Hw : (1 <= wid <= length s - idx)%nat).
    { apply DecodeRune_size in D'.
      - by rewrite length_drop in D'.
      - intros Ht. apply (f_equal length) in Ht. rewrite length_drop in Ht.
        simpl in Ht. lia. }
    replace (Z.to_nat (Z.of_nat idx + Z.of_nat wid)) with (idx + wid)%nat by lia.
    rewrite last_take_lookup by lia. intros Hc. left.
    apply at_lookup in Hc. rewrite <- Hc.
    destruct (decide (wid = 1%nat)) as [->|Hne].
    + by replace (idx + 1 - 1)%nat with idx by lia.
    + replace (idx + wid - 1)%nat with (idx + (wid - 1))%nat by lia.
      rewrite <- at_drop. apply (DecodeRune_cont _ _ _ _ D'). lia.
  - replace (Z.to_nat (Z.of_nat idx + 1)) with (idx + 1)%nat by lia.
    rewrite last_take_lookup by lia.
    replace (idx + 1 - 1)%nat with idx by lia. intros Hc. right.
    apply at_lookup in Hc. rewrite <- Hc.
    apply DecodeLastRune_ascii_start in D as [-> ->].
    + rewrite length_take in Hf.
      replace (i `min` length s)%nat with i in Hf by lia.
      by rewrite at_take in Hf by lia.
    + intros Ht. apply (f_equal length) in Ht. rewrite length_take in Ht.
      simpl in Ht. lia.
    + rewrite length_take. replace (i `min` length s)%nat with i by lia.
      rewrite at_take by lia. done.
Qed.

Lemma TrimSpace_stop_last t c :
  last (strings.TrimSpace_stop t) = Some c ->
  strings.asciiSpace (byte_val c) = false.
Proof.
  induction t as [|c0 t IH]; [done|]. cbn [strings.TrimSpace_stop].
  destruct (utf8.RuneSelf <=? byte_val c0).
  - intros H%TrimRightFunc_last. by eapply not_asciiSpace.
  - destruct (strings.asciiSpace (byte_val c0)) eqn:E; [done|].
    cbn [rev]. rewrite last_snoc. by intros [= <-].
Qed.

Lemma TrimSpace_final s c :
  last (strings.TrimSpace s) = Some c ->
  strings.asciiSpace (byte_val c) = false.
Proof.
  induction s as [|c0 s IH]; [done|]. cbn [strings.TrimSpace].
  destruct (utf8.RuneSelf <=? byte_val c0).
  - intros H%TrimRightFunc_last. by eapply not_asciiSpace.
  - destruct (strings.asciiSpace (byte_val c0)); [done|].
    apply TrimSpace_stop_last.
Qed.

Lemma saveError_is_Some e e' :
  is_Some (json.saveError e e') <-> is_Some e \/ is_Some e'.
Proof.
  destruct e as [e|]; cbn.
  - split; [by left|by eauto].
  - split; [by right|]. by intros [[? [=]]|?].
Qed.

Lemma store_string_error v dst :
  is_Some (json.store_string v dst).2 <-> bad_login v = true.
Proof.
  destruct v; cbn; split; try done; try (by intros [? [=]]); by eauto.
Qed.

Lemma object_Assignee_error ms dst :
  is_Some (decode.object_Assignee ms dst).2 <->
  existsb (fun m => json.field_matches (lit "login") m.1 && bad_login m.2) ms
  = true.
Proof.
  revert dst. induction ms as [|[key v] ms IH]; intros dst.
  - cbn. split; [by intros [? [=]]|done].
  - cbn [decode.object_Assignee existsb fst snd].
    destruct (json.field_matches (lit "login") key).
    + pose proof (store_string_error v (Login dst)) as Hs.
      destruct (json.store_string v (Login dst)) as [l e].
      specialize (IH {| Login := l |}).
      destruct (decode.object_Assignee ms {| Login := l |}) as [dst' e'].
      cbn [fst snd andb] in *.
      rewrite saveError_is_Some, orb_true_iff, <- IH, <- Hs. done.
    + specialize (IH dst).
      destruct (decode.object_Assignee ms dst) as [dst' e'].
      cbn [fst snd andb orb] in *. rewrite <- IH.
      rewrite saveError_is_Some. split; [by intros [[? [=]]|?]|by right].
Qed.

Lemma value_Assignee_error v dst :
  is_Some (decode.value_Assignee v dst).2 <-> bad_record v = true.
Proof.
  destruct v; cbn [decode.value_Assignee bad_record snd];
    try (split; [done|by eauto]).
  apply object_Assignee_error.
Qed.

Lemma array_Assignees_error vs :
  is_Some (decode.array_Assignees vs).2 <-> existsb bad_record vs = true.
Proof.
  induction vs as [|v vs IH].
  - cbn. split; [by intros [? [=]]|done].
  - cbn [decode.array_Assignees existsb].
    pose proof (value_Assignee_error v zero_Assignee) as Hv.
    destruct (decode.value_Assignee v zero_Assignee) as [a e].
    destruct (decode.array_Assignees vs) as [l e'].
    cbn [fst snd] in *.
    by rewrite saveError_is_Some, orb_true_iff, <- IH, <- Hv.
Qed.

Lemma parse_assignees_array a vs :
  json.parse a = Some (json.Array vs) ->
  parse_assignees a =
  if existsb bad_record vs then None else Some (decode.array_Assignees vs).1.
Proof.
  intros H. unfold parse_assignees, Unmarshal_Assignees, Unmarshal_Assignee.
  rewrite H. cbn [decode.value_Assignees decode.value_Assignee].
  pose proof (array_Assignees_error vs) as He.
  destruct (decode.array_Assignees vs) as [l e]. cbn [fst snd] in *.
  destruct e as [e|].
  - destruct He as [He _]. by rewrite He.
  - destruct (existsb bad_record vs); [|done].
    destruct He as [_ He]. by destruct He.
Qed.

Lemma build_loginSet_true assignees username b :
  build_loginSet assignees !! username = Some b -> b = true.
Proof.
  unfold build_loginSet.
  assert (G : forall m : gmap gostring bool,
    (forall u b, m !! u = Some b -> b = true) ->
    forall u b,
      foldl (fun loginSet assignee =>
               if bool_decide (Login assignee ≠ []) then
                 <[Login assignee := true]> loginSet
               else loginSet) m assignees !! u = Some b -> b = true).
  { induction assignees as [|a l IH]; intros m Hm; [done|].
    cbn [foldl]. apply IH. case_bool_decide; [|done].
    intros u b'. destruct (decide (Login a = u)) as [<-|Hne].
    - rewrite lookup_insert_eq. by intros [= <-].
    - rewrite lookup_insert_ne by done. apply Hm. }
  apply G. intros u b'. by rewrite lookup_empty.
Qed.

Lemma assigned_ext l l' :
  (forall u, u ≠ [] -> u ∈ map Login l <-> u ∈ map Login l') ->
  forall u, assigned l u = assigned l' u.
Proof.
  intros H u. unfold assigned. apply bool_decide_ext.
  split; intros [Hu Hin]; (split; [done|]); by apply H.
Qed.

Lemma pair_of_Some piece username openID :
  pair_of piece = Some (username, openID) ->
  exists part0 part1,
    strings.TrimSpace piece = part0 ++ ":"%char :: part1
    /\ (":"%char ∉ part0)
    /\ username = strings.TrimSpace part0
    /\ openID = strings.TrimSpace part1.
Proof.
  unfold pair_of. case_bool_decide; [done|].
  destruct (strings.Cut _ _) as [part0 [part1|]] eqn:E; [|done].
  intros [= <- <-]. apply Cut_Some in E as [E Hn]. by exists part0, part1.
Qed.

(** ** Helper lemmas on the driver *)

Lemma main_exchange_halves upper w :
  main_exchange upper w =
  match main_prepare upper w with
  | inl o => inl o
  | inr (webhookURL, jsonData) => main_roundtrip w webhookURL jsonData
  end.
Proof.
  unfold main_exchange, main_prepare, main_roundtrip. cbv zeta.
  repeat (match goal with
          | |- (if ?c then _ else _) = _ => destruct c
          | |- match ?x with inl _ => _ | inr _ => _ end = _ => destruct x
          | |- match ?x with Some _ => _ | None => _ end = _ => destruct x
          end; try reflexivity).
Qed.

Lemma supported_msgType_check msgType :
  supported_msgType msgType <->
  negb (bool_decide ((if bool_decide (msgType = []) then lit "text" else msgType)
                     = lit "text"))
  && negb (bool_decide ((if bool_decide (msgType = []) then lit "text" else msgType)
                        = lit "markdown")) = false.
Proof.
  unfold supported_msgType. split.
  - intros [-> | [-> | ->] ]; reflexivity.
  - destruct (decide (msgType = [])) as [H0|H0]; [by left|].
    destruct (decide (msgType = lit "text")) as [H1|H1]; [by right; left|].
    destruct (decide (msgType = lit "markdown")) as [H2|H2]; [by right; right|].
    rewrite (bool_decide_eq_false_2 _ H0), (bool_decide_eq_false_2 _ H1),
      (bool_decide_eq_false_2 _ H2). done.
Qed.

Lemma Getenv_empty_unset env name key :
  Getenv (<[name := []]> env) key = Getenv (delete name env) key.
Proof.
  unfold Getenv. destruct (decide (name = key)) as [->|Hne].
  - by rewrite lookup_insert_eq, lookup_delete_eq.
  - by rewrite lookup_insert_ne, lookup_delete_ne.
Qed.

Lemma upper_byte_ascii c :
  (byte_val (strings.upper_byte c) <? utf8.RuneSelf) = (byte_val c <? utf8.RuneSelf).
Proof. destruct c as [[] [] [] [] [] [] [] []]; reflexivity. Qed.

Lemma upper_byte_hyphen c :
  strings.upper_byte (if Ascii.eqb c "-" then "_"%char else c)
  = if Ascii.eqb (strings.upper_byte c) "-" then "_"%char else strings.upper_byte c.
Proof. destruct c as [[] [] [] [] [] [] [] []]; reflexivity. Qed.

Lemma isASCII_upper s :
  strings.isASCII (map strings.upper_byte s) = strings.isASCII s.
Proof.
  unfold strings.isASCII. induction s as [|c s IH]; [done|].
  cbn [map forallb]. by rewrite upper_byte_ascii, IH.
Qed.

Lemma upper_ReplaceAll s :
  map strings.upper_byte (strings.ReplaceAll s "-" "_")
  = strings.ReplaceAll (map strings.upper_byte s) "-" "_".
Proof.
  unfold strings.ReplaceAll. induction s as [|c s IH]; [done|].
  cbn [map]. by rewrite upper_byte_hyphen, IH.
Qed.

Lemma ToUpper_ascii upper s :
  strings.isASCII s = true -> ToUpper upper s = map strings.upper_byte s.
Proof. intros H. unfold ToUpper. by rewrite H. Qed.

Lemma getEnv_ascii upper env key :
  strings.isASCII key = true ->
  getEnv upper env key =
  let val := Getenv env (lit "INPUT_" ++ strings.ReplaceAll
                           (map strings.upper_byte key) "-" "_") in
  if negb (bool_decide (val = [])) then val
  else Getenv env (map strings.upper_byte key).
Proof.
  intros H. unfold getEnv, inputKey, upperKey.
  rewrite !ToUpper_ascii by (by rewrite ?isASCII_ReplaceAll).
  by rewrite upper_ReplaceAll.
Qed.

Lemma Join_elem_of ps sep p c : p ∈ ps -> c ∈ p -> c ∈ Join ps sep.
Proof.
  induction ps as [|q rest IH]; [by intros ?%elem_of_nil|].
  intros Hp Hc. destruct rest as [|q' rest].
  - apply list_elem_of_singleton in Hp as ->. done.
  - rewrite Join_cons by done. apply elem_of_cons in Hp as [->|Hp].
    + apply elem_of_app. by left.
    + apply elem_of_app. right. right. by apply IH.
Qed.

Lemma Split_elem_of s sep p c : p ∈ strings.Split s sep -> c ∈ p -> c ∈ s.
Proof.
  intros Hp Hc. rewrite <- (Join_Split s sep). by eapply Join_elem_of.
Qed.

Lemma mentions_prefix userMaps assigneesJSON postMessage :
  (if negb (bool_decide (assigneesJSON = [])) && negb (bool_decide (userMaps = []))
   then if negb (bool_decide (parseUsers userMaps assigneesJSON = []))
        then parseUsers userMaps assigneesJSON ++ postMessage
        else postMessage
   else postMessage)
  = parseUsers userMaps assigneesJSON ++ postMessage.
Proof.
  destruct (decide (assigneesJSON = [])) as [->|Ha].
  { unfold parseUsers. rewrite (bool_decide_eq_true_2 ([] = [])) by done.
    by rewrite orb_true_r. }
  destruct (decide (userMaps = [])) as [->|Hm].
  { unfold parseUsers. rewrite (bool_decide_eq_true_2 ([] = [])) by done.
    by rewrite andb_false_r. }
  rewrite (bool_decide_eq_false_2 _ Ha), (bool_decide_eq_false_2 _ Hm).
  cbn [negb andb].
  destruct (decide (parseUsers userMaps assigneesJSON = [])) as [E|E].
  - by rewrite E.
  - by rewrite (bool_decide_eq_false_2 _ E).
Qed.

(** ** The resolver *)

(** X1. The user map is resolved piece by piece: the output for two maps
    joined by a comma is the output for the first followed by the output
    for the second, and a comma at the head or at the end of the map
    changes nothing. *)
Theorem parseUsers_comma (userMaps1 userMaps2 assigneesJSON : gostring) :
  parseUsers (userMaps1 ++ ","%char :: userMaps2) assigneesJSON
  = parseUsers userMaps1 assigneesJSON ++ parseUsers userMaps2 assigneesJSON
  /\ parseUsers (userMaps1 ++ [","%char]) assigneesJSON
     = parseUsers userMaps1 assigneesJSON
  /\ parseUsers (","%char :: userMaps2) assigneesJSON
     = parseUsers userMaps2 assigneesJSON.
Proof.
  assert (E : parseUsers [] assigneesJSON = []) by done.
  split; [apply parseUsers_app|split].
  - by rewrite parseUsers_app, E, app_nil_r.
  - by rewrite (parseUsers_app [] userMaps2), E.
Qed.

(** X2. [loginSet] answers [true] exactly at the non-empty logins of the
    assignee records, compared byte by byte, and no key of it is ever
    bound to [false]. *)
Theorem loginSet_membership (assignees : list Assignee) (username : gostring) :
  (index_loginSet (build_loginSet assignees) username = true <->
   username ≠ [] /\ exists a, a ∈ assignees /\ Login a = username)
  /\ (forall b, build_loginSet assignees !! username = Some b -> b = true).
Proof.
  split; [|apply build_loginSet_true].
  rewrite build_loginSet_lookup. unfold assigned.
  rewrite bool_decide_eq_true, list_elem_of_fmap.
  split; intros [H (a & Ha & Ha')]; (split; [done|]); exists a; by split.
Qed.

(** X3. The output depends on the assignees only through the set of their
    non-empty logins: two assignee texts with the same logins, in any order
    and with any repetitions, give the same output. *)
Theorem parseUsers_login_set (userMaps assigneesJSON assigneesJSON' : gostring)
    (assignees assignees' : list Assignee) :
  parse_assignees assigneesJSON = Some assignees ->
  parse_assignees assigneesJSON' = Some assignees' ->
  (forall u, u ≠ [] -> u ∈ map Login assignees <-> u ∈ map Login assignees') ->
  parseUsers userMaps assigneesJSON = parseUsers userMaps assigneesJSON'.
Proof.
  intros H H' Hset. rewrite !parseUsers_spec, H, H'. unfold emitted.
  f_equal. f_equal. apply filter_ext. intros p. by apply assigned_ext.
Qed.

Lemma parseUsers_login_set_example :
  parseUsers (lit "a:1, b:2, c:3")
             (raw "[{'login':'b'},{'login':'a'},{'login':'b'},{'login':''}]")
  = parseUsers (lit "a:1, b:2, c:3") (raw "[{'login':'a'},{'login':'b'}]").
Proof.
  apply (parseUsers_login_set _ _ _
           [ {| Login := lit "b" |}; {| Login := lit "a" |};
             {| Login := lit "b" |}; {| Login := [] |} ]
           [ {| Login := lit "a" |}; {| Login := lit "b" |} ]).
  - vm_compute. reflexivity.
  - vm_compute. reflexivity.
  - intros u Hu. cbn [map Login]. rewrite !elem_of_cons, !elem_of_nil.
    intuition congruence.
Defined.

(** X4. One element the array decode rejects silences every mention: when
    the assignees text is a JSON array holding an element that is neither
    an object nor [null], or an object whose [login] is neither a string
    nor [null], no assignee is kept, whatever the other elements are. *)
Theorem parseUsers_bad_record (userMaps assigneesJSON : gostring)
    (vs : list json.value) :
  json.parse assigneesJSON = Some (json.Array vs) ->
  existsb bad_record vs = true ->
  parse_assignees assigneesJSON = None
  /\ parseUsers userMaps assigneesJSON = [].
Proof.
  intros H Hb. pose proof (parse_assignees_array _ _ H) as E.
  rewrite Hb in E. split; [done|]. by rewrite parseUsers_spec, E.
Qed.

Lemma parseUsers_bad_record_example :
  parse_assignees (raw "[{'login':'a'},{'login':5}]") = None
  /\ parseUsers (lit "a:1") (raw "[{'login':'a'},{'login':5}]") = [].
Proof.
  apply (parseUsers_bad_record _ _
           [json.Object [(lit "login", json.String (lit "a"))];
            json.Object [(lit "login", json.Number (lit "5"))]]).
  - vm_compute. reflexivity.
  - vm_compute. reflexivity.
Defined.

(** X5. How the assignees text is read, by the kind of its JSON value:
    [null] stands for no assignee, an array for its records unless one of
    them is rejected, an object for the one record it holds unless its
    [login] is rejected, and a string, a number or a boolean for nothing
    at all. *)
Theorem parse_assignees_kinds (assigneesJSON : gostring) (v : json.value) :
  json.parse assigneesJSON = Some v ->
  parse_assignees assigneesJSON =
  match v with
  | json.Null => Some []
  | json.Array vs =>
    if existsb bad_record vs then None
    else Some (decode.array_Assignees vs).1
  | json.Object ms =>
    if bad_record (json.Object ms) then None
    else Some [(decode.object_Assignee ms zero_Assignee).1]
  | _ => None
  end.
Proof.
  intros H. destruct v as [|b|n|s|vs|ms]; try by apply parse_assignees_array.
  all: unfold parse_assignees, Unmarshal_Assignees, Unmarshal_Assignee;
    rewrite H; cbn [decode.value_Assignees decode.value_Assignee]; try done.
  pose proof (object_Assignee_error ms zero_Assignee) as He.
  cbn [bad_record].
  destruct (decode.object_Assignee ms zero_Assignee) as [a e].
  cbn [fst snd] in *. destruct e as [e|].
  - destruct He as [He _]. by rewrite He.
  - destruct (existsb _ ms); [|done]. destruct He as [_ He]. by destruct He.
Qed.

Lemma parse_assignees_kinds_example :
  parse_assignees (lit " null ") = Some []
  /\ parse_assignees (raw "'a'") = None
  /\ parse_assignees (raw "{'id':7,'Login':'a'}") = Some [ {| Login := lit "a" |} ].
Proof.
  split; [|split].
  - apply (parse_assignees_kinds _ json.Null). vm_compute. reflexivity.
  - apply (parse_assignees_kinds _ (json.String (lit "a"))).
    vm_compute. reflexivity.
  - apply (parse_assignees_kinds _
             (json.Object [(lit "id", json.Number (lit "7"));
                           (lit "Login", json.String (lit "a"))])).
    vm_compute. reflexivity.
Defined.

(** X6. A member of an assignee object whose key does not select the field
    [login] is ignored, whatever its value is: the record decoded and the
    error reported are those of the object without the member. *)
Theorem value_Assignee_other_member
    (ms1 ms2 : list (gostring * json.value)) (key : gostring)
    (v : json.value) (dst : Assignee) :
  json.field_matches (lit "login") key = false ->
  decode.value_Assignee (json.Object (ms1 ++ (key, v) :: ms2)) dst
  = decode.value_Assignee (json.Object (ms1 ++ ms2)) dst.
Proof.
  intros Hk. cbn [decode.value_Assignee]. revert dst.
  induction ms1 as [|[k x] ms1 IH]; intros dst.
  - cbn [app decode.object_Assignee]. rewrite Hk.
    by destruct (decode.object_Assignee ms2 dst).
  - cbn [app decode.object_Assignee].
    destruct (if json.field_matches (lit "login") k then _ else _) as [dst' e].
    by rewrite IH.
Qed.

Lemma value_Assignee_other_member_example :
  decode.value_Assignee
    (json.Object [(lit "id", json.Number (lit "7"));
                  (lit "login", json.String (lit "a"))]) zero_Assignee
  = decode.value_Assignee
      (json.Object [(lit "login", json.String (lit "a"))]) zero_Assignee.
Proof.
  apply (value_Assignee_other_member [] _ (lit "id")). vm_compute. reflexivity.
Defined.

(** X7. What a mention can carry: the username and the ID of a pair the
    loop reaches are made of bytes of the user map, neither holds a comma,
    the username holds no colon, and neither begins or ends with an ASCII
    white-space byte. *)
Theorem valid_pairs_names (userMaps username openID : gostring) :
  (username, openID) ∈ valid_pairs userMaps ->
  (","%char ∉ username) /\ (":"%char ∉ username) /\ (","%char ∉ openID)
  /\ (forall c, c ∈ username \/ c ∈ openID -> c ∈ userMaps)
  /\ (forall c, head username = Some c \/ last username = Some c
                \/ head openID = Some c \/ last openID = Some c ->
                strings.asciiSpace (byte_val c) = false).
Proof.
  unfold valid_pairs. rewrite list_elem_of_omap.
  intros (piece & Hpiece & Hp).
  apply pair_of_Some in Hp as (part0 & part1 & E & Hcolon & -> & ->).
  assert (Hsub : forall c, c ∈ part0 \/ c ∈ part1 -> c ∈ piece).
  { intros c Hc. apply TrimSpace_elem_of. rewrite E, elem_of_app, elem_of_cons.
    tauto. }
  pose proof (Split_pieces _ _ _ Hpiece) as Hcomma.
  repeat split.
  - intros H%TrimSpace_elem_of. apply Hcomma, Hsub. by left.
  - by intros H%TrimSpace_elem_of.
  - intros H%TrimSpace_elem_of. apply Hcomma, Hsub. by right.
  - intros c [H%TrimSpace_elem_of|H%TrimSpace_elem_of];
      apply (Split_elem_of _ _ _ _ Hpiece), Hsub; tauto.
  - intros c [H|[H|[H|H] ] ].
    + destruct (strings.TrimSpace part0) as [|c0 r] eqn:Et; [done|].
      injection H as ->. by eapply TrimSpace_first.
    + by eapply TrimSpace_final.
    + destruct (strings.TrimSpace part1) as [|c0 r] eqn:Et; [done|].
      injection H as ->. by eapply TrimSpace_first.
    + by eapply TrimSpace_final.
Qed.

Lemma valid_pairs_names_example :
  (","%char ∉ lit "a") /\ (":"%char ∉ lit "a") /\ (","%char ∉ lit "1:x")
  /\ (forall c, c ∈ lit "a" \/ c ∈ lit "1:x" -> c ∈ lit " a : 1:x , b:2")
  /\ (forall c, head (lit "a") = Some c \/ last (lit "a") = Some c
                \/ head (lit "1:x") = Some c \/ last (lit "1:x") = Some c ->
                strings.asciiSpace (byte_val c) = false).
Proof.
  apply (valid_pairs_names (lit " a : 1:x , b:2")). vm_compute. left.
Defined.

(** ** The [strings] routines the resolver calls *)

(** X8. [strings.Split] loses nothing: the pieces written one after the
    other with the separator between them are the string again, no piece
    holds the separator, and there is one piece more than there are
    separators. *)
Theorem Split_Join_roundtrip (s : gostring) (sep : ascii) :
  Join (strings.Split s sep) sep = s
  /\ (forall p, p ∈ strings.Split s sep -> sep ∉ p)
  /\ length (strings.Split s sep) = S (count_occ Ascii.ascii_dec s sep).
Proof.
  split; [apply Join_Split|split; [apply Split_pieces|apply Split_length] ].
Qed.

(** X9. [strings.Split] finds the pieces that were joined: for a list of
    pieces, not empty and none of them holding the separator, it returns
    that list from their joined text. *)
Theorem Split_of_Join (pieces : list gostring) (sep : ascii) :
  pieces ≠ [] -> (forall p, p ∈ pieces -> sep ∉ p) ->
  strings.Split (Join pieces sep) sep = pieces.
Proof. apply Split_Join_pieces. Qed.

Lemma Split_of_Join_example :
  strings.Split (lit "a:1,, b:2") ","%char = [lit "a:1"; []; lit " b:2"].
Proof.
  apply (Split_of_Join [lit "a:1"; []; lit " b:2"] ","%char); [done|].
  intros p Hp. rewrite !elem_of_cons, elem_of_nil in Hp.
  destruct Hp as [-> | [-> | [-> | [] ] ] ];
    intros H; unfold lit in H; cbn [list_ascii_of_string] in H;
    repeat (apply elem_of_cons in H as [H|H]; [discriminate H|]);
    by apply elem_of_nil in H.
Defined.

(** X10. [strings.SplitN(s, sep, 2)] cuts at the first separator only: it
    returns one part or two, two exactly when the string holds the
    separator, the first of two parts holds no separator, and the parts
    joined by the separator are the string again. *)
Theorem SplitN2_first_separator (s : gostring) (sep : ascii) :
  Join (strings.SplitN2 s sep) sep = s
  /\ (length (strings.SplitN2 s sep) = 2%nat <-> sep ∈ s)
  /\ (length (strings.SplitN2 s sep) = 1%nat <-> sep ∉ s)
  /\ (forall part0 part1,
        strings.SplitN2 s sep = [part0; part1] -> sep ∉ part0).
Proof.
  unfold strings.SplitN2.
  destruct (strings.Cut s sep) as [before [after|] ] eqn:E.
  - apply Cut_Some in E as [-> Hn].
    assert (Hin : sep ∈ before ++ sep :: after).
    { apply elem_of_app. right. left. }
    repeat split; try done.
    by intros ? ? [= <- <-].
  - apply Cut_None in E as [-> Hn]. repeat split; try done.
Qed.

(** X11. [strings.TrimSpace] cuts a part out of its argument: the result
    stands in the argument between what was trimmed at the left and at the
    right, and it neither begins nor ends with an ASCII white-space
    byte. *)
Theorem TrimSpace_contiguous (s : gostring) :
  (exists l r, s = l ++ strings.TrimSpace s ++ r)
  /\ (forall c, head (strings.TrimSpace s) = Some c
                \/ last (strings.TrimSpace s) = Some c ->
                strings.asciiSpace (byte_val c) = false).
Proof.
  split; [apply TrimSpace_part|]. intros c [H|H].
  - destruct (strings.TrimSpace s) as [|c0 r] eqn:E; [done|].
    injection H as ->. by eapply TrimSpace_first.
  - by eapply TrimSpace_final.
Qed.

(** ** The lookup of a configuration value *)

(** X12. [getEnv] cannot tell a variable set to the empty string from a
    variable that is not set, under either of the two names. *)
Theorem getEnv_empty_is_unset (Map_unicode_ToUpper : gostring -> gostring)
    (env : gmap gostring gostring) (name key : gostring) :
  getEnv Map_unicode_ToUpper (<[name := []]> env) key
  = getEnv Map_unicode_ToUpper (delete name env) key.
Proof. unfold getEnv. by rewrite !Getenv_empty_unset. Qed.

(** X13. For ASCII keys [getEnv] does not see the case of the letters: two
    keys that differ only in the case of ASCII letters read the same
    value. *)
Theorem getEnv_key_case (Map_unicode_ToUpper : gostring -> gostring)
    (env : gmap gostring gostring) (key key' : gostring) :
  strings.isASCII key = true -> strings.isASCII key' = true ->
  map strings.upper_byte key = map strings.upper_byte key' ->
  getEnv Map_unicode_ToUpper env key = getEnv Map_unicode_ToUpper env key'.
Proof. intros H H' E. rewrite !getEnv_ascii by done. by rewrite E. Qed.

Lemma getEnv_key_case_example :
  getEnv id {[lit "INPUT_BOT_TOKEN" := lit "t1"]} (lit "Bot_Token")
  = getEnv id {[lit "INPUT_BOT_TOKEN" := lit "t1"]} (lit "bot_token").
Proof.
  apply (getEnv_key_case id _ (lit "Bot_Token") (lit "bot_token"));
    vm_compute; reflexivity.
Defined.

(** ** The driver *)

(** X14. Without a token nothing is sent: when neither [INPUT_BOT_TOKEN]
    nor [BOT_TOKEN] holds a value the run ends, whatever else is
    configured, with the message about the token on standard error and
    exit status 1, before a request is built. *)
Theorem main_missing_token (Map_unicode_ToUpper : gostring -> gostring)
    (w : World) :
  Getenv (environ w) (lit "INPUT_BOT_TOKEN") = [] ->
  Getenv (environ w) (lit "BOT_TOKEN") = [] ->
  main Map_unicode_ToUpper w
  = Fatal (lit "::error::Please set the BOT_TOKEN secret." ++ newline)
  /\ main_prepare Map_unicode_ToUpper w
     = inl (Fatal (lit "::error::Please set the BOT_TOKEN secret." ++ newline))
  /\ exit_status (main Map_unicode_ToUpper w) = 1.
Proof.
  intros H1 H2.
  assert (E : getEnv Map_unicode_ToUpper (environ w) (lit "bot_token") = []).
  { rewrite getEnv_ascii by reflexivity.
    change (lit "INPUT_" ++ strings.ReplaceAll
              (map strings.upper_byte (lit "bot_token")) "-" "_")
      with (lit "INPUT_BOT_TOKEN").
    change (map strings.upper_byte (lit "bot_token")) with (lit "BOT_TOKEN").
    cbv zeta. by rewrite H1, H2. }
  assert (P : main_prepare Map_unicode_ToUpper w
     = inl (Fatal (lit "::error::Please set the BOT_TOKEN secret." ++ newline))).
  { unfold main_prepare. cbv zeta. by rewrite E. }
  unfold main. rewrite main_exchange_halves, P. done.
Qed.

Lemma main_missing_token_example :
  main id (with_environ (example_world (lit "ok"))
             {[lit "POST_MESSAGE" := lit "Build failed"]})
  = Fatal (lit "::error::Please set the BOT_TOKEN secret." ++ newline)
  /\ main_prepare id (with_environ (example_world (lit "ok"))
                        {[lit "POST_MESSAGE" := lit "Build failed"]})
     = inl (Fatal (lit "::error::Please set the BOT_TOKEN secret." ++ newline))
  /\ exit_status (main id (with_environ (example_world (lit "ok"))
                             {[lit "POST_MESSAGE" := lit "Build failed"]})) = 1.
Proof.
  apply (main_missing_token id); vm_compute; reflexivity.
Defined.

(** X15. The request [main] makes: when the run gets as far as sending, the
    token is set, the URL is the webhook base, a slash and the token, the
    message type lies among the supported ones, and the payload is the
    encoding of a body of type [text], also for [markdown], whose text is
    the output of [parseUsers] followed by the message; the message is
    [post_message] when that is set and the content of the message file
    otherwise. *)
Theorem main_prepare_request (Map_unicode_ToUpper : gostring -> gostring)
    (w : World) (webhookURL jsonData : gostring) :
  main_prepare Map_unicode_ToUpper w = inr (webhookURL, jsonData) ->
  let getEnv := getEnv Map_unicode_ToUpper (environ w) in
  getEnv (lit "bot_token") ≠ []
  /\ webhookURL
     = lit "https://open.feishu.cn/open-apis/bot/v2/hook/"
       ++ getEnv (lit "bot_token")
  /\ NewRequest w webhookURL = None
  /\ supported_msgType (getEnv (lit "msg_type"))
  /\ exists message,
       (if bool_decide (getEnv (lit "post_message") = [])
        then getEnv (lit "message_file") ≠ []
             /\ ReadFile w (getEnv (lit "message_file")) = inl message
        else message = getEnv (lit "post_message"))
       /\ Marshal w {| MsgType := lit "text";
                       Content := {| Text :=
                         parseUsers (getEnv (lit "user_maps"))
                                    (getEnv (lit "assignees")) ++ message |} |}
          = inl jsonData.
Proof.
  unfold main_prepare. cbv zeta.
  set (getEnv := getEnv Map_unicode_ToUpper (environ w)).
  destruct (decide (getEnv (lit "bot_token") = [])) as [Ht|Ht].
  { by rewrite (bool_decide_eq_true_2 _ Ht). }
  rewrite (bool_decide_eq_false_2 _ Ht).
  destruct (bool_decide (getEnv (lit "post_message") = [])
            && bool_decide (getEnv (lit "message_file") = [])) eqn:Hm; [done|].
  destruct (if bool_decide (getEnv (lit "post_message") = [])
               && negb (bool_decide (getEnv (lit "message_file") = []))
            then ReadFile w (getEnv (lit "message_file"))
            else inl (getEnv (lit "post_message"))) as [message|err] eqn:Hr;
    [|done].
  rewrite mentions_prefix.
  destruct (negb _ && negb _) eqn:Hs; [done|].
  apply supported_msgType_check in Hs.
  destruct (Marshal w _) as [data|err] eqn:HM; [|done].
  destruct (NewRequest w _) as [err|] eqn:HN; [done|].
  intros [= <- <-]. repeat split; try done.
  exists message. split; [|done].
  destruct (bool_decide (getEnv (lit "post_message") = [])).
  - destruct (decide (getEnv (lit "message_file") = [])) as [Hf|Hf].
    + by rewrite (bool_decide_eq_true_2 _ Hf) in Hm.
    + by rewrite (bool_decide_eq_false_2 _ Hf) in Hr.
  - cbn [andb] in Hr. by injection Hr.
Qed.

Lemma main_prepare_request_example :
  let getEnv := getEnv id (environ (example_world (lit "ok"))) in
  getEnv (lit "bot_token") ≠ []
  /\ lit "https://open.feishu.cn/open-apis/bot/v2/hook/T"
     = lit "https://open.feishu.cn/open-apis/bot/v2/hook/"
       ++ getEnv (lit "bot_token")
  /\ NewRequest (example_world (lit "ok"))
       (lit "https://open.feishu.cn/open-apis/bot/v2/hook/T") = None
  /\ supported_msgType (getEnv (lit "msg_type"))
  /\ exists message,
       (if bool_decide (getEnv (lit "post_message") = [])
        then getEnv (lit "message_file") ≠ []
             /\ ReadFile (example_world (lit "ok")) (getEnv (lit "message_file"))
                = inl message
        else message = getEnv (lit "post_message"))
       /\ Marshal (example_world (lit "ok"))
            {| MsgType := lit "text";
               Content := {| Text :=
                 parseUsers (getEnv (lit "user_maps"))
                            (getEnv (lit "assignees")) ++ message |} |}
          = inl (lit "Build failed").
Proof.
  apply (main_prepare_request id (example_world (lit "ok"))).
  vm_compute. reflexivity.
Defined.

(** X16. A run that ends with exit status 0 has sent the request it
    prepared and has read an answer with HTTP status 200 whose decoded code
    is 0. *)
Theorem main_success_sent (Map_unicode_ToUpper : gostring -> gostring)
    (w : World) :
  exit_status (main Map_unicode_ToUpper w) = 0 ->
  exists webhookURL jsonData responseBody feishuResp,
    main_prepare Map_unicode_ToUpper w = inr (webhookURL, jsonData)
    /\ Do w webhookURL jsonData = inl (200, inl responseBody)
    /\ Unmarshal_response w responseBody = inl feishuResp
    /\ Code feishuResp = 0.
Proof.
  unfold main.
  destruct (main_exchange Map_unicode_ToUpper w) as [o|[StatusCode resp] ] eqn:E.
  { apply main_exchange_early in E as [stderr ->]. done. }
  unfold check_response, StatusOK.
  destruct (Z.eqb_spec StatusCode 200) as [->|Hs]; [|done].
  destruct (Z.eqb_spec (Code resp) 0) as [Hc|Hc]; [|done]. intros _.
  rewrite main_exchange_halves in E.
  destruct (main_prepare Map_unicode_ToUpper w) as [o|[url data] ]; [done|].
  unfold main_roundtrip in E.
  destruct (Do w url data) as [ [st [body|err] ]|err] eqn:D; try done.
  destruct (Unmarshal_response w body) as [r|err] eqn:U; [|done].
  injection E as -> ->. by exists url, data, body, resp.
Qed.

Lemma main_success_sent_example :
  exists webhookURL jsonData responseBody feishuResp,
    main_prepare id (example_world (lit "ok")) = inr (webhookURL, jsonData)
    /\ Do (example_world (lit "ok")) webhookURL jsonData
       = inl (200, inl responseBody)
    /\ Unmarshal_response (example_world (lit "ok")) responseBody
       = inl feishuResp
    /\ Code feishuResp = 0.
Proof.
  apply (main_success_sent id (example_world (lit "ok"))).
  vm_compute. reflexivity.
Defined.

(** X17. The message type only has to be supported: two environments that
    agree on the five other configuration values and both hold a supported
    message type lead to the same run, so [markdown] is sent exactly as
    [text] is. *)
Theorem main_msg_type (Map_unicode_ToUpper : gostring -> gostring)
    (w : World) (env : gmap gostring gostring) :
  map (getEnv Map_unicode_ToUpper env)
      [lit "bot_token"; lit "post_message"; lit "message_file";
       lit "user_maps"; lit "assignees"]
  = map (getEnv Map_unicode_ToUpper (environ w))
        [lit "bot_token"; lit "post_message"; lit "message_file";
         lit "user_maps"; lit "assignees"] ->
  supported_msgType (getEnv Map_unicode_ToUpper (environ w) (lit "msg_type")) ->
  supported_msgType (getEnv Map_unicode_ToUpper env (lit "msg_type")) ->
  main Map_unicode_ToUpper (with_environ w env) = main Map_unicode_ToUpper w.
Proof.
  intros E Hw%supported_msgType_check Henv%supported_msgType_check.
  pose proof (f_equal (fun l => nth 0 l []) E) as E1.
  pose proof (f_equal (fun l => nth 1 l []) E) as E2.
  pose proof (f_equal (fun l => nth 2 l []) E) as E3.
  pose proof (f_equal (fun l => nth 3 l []) E) as E4.
  pose proof (f_equal (fun l => nth 4 l []) E) as E5.
  cbn [map nth] in E1, E2, E3, E4, E5.
  unfold main, main_exchange. cbv zeta. cbn [environ with_environ ReadFile
    Marshal NewRequest Do Unmarshal_response].
  by rewrite E1, E2, E3, E4, E5, Hw, Henv.
Qed.

Lemma main_msg_type_example :
  main id (with_environ (example_world (lit "ok"))
             {[lit "INPUT_BOT_TOKEN" := lit "T";
               lit "POST_MESSAGE" := lit "Build failed";
               lit "INPUT_MSG_TYPE" := lit "markdown"]})
  = main id (example_world (lit "ok")).
Proof.
  apply (main_msg_type id).
  - vm_compute. reflexivity.
  - left. vm_compute. reflexivity.
  - right. right. vm_compute. reflexivity.
Defined.

(** X18. [post_message] goes before the message file: when it is set the
    file is not read, so the run is the same whatever the file system
    holds. *)
Theorem main_post_message_first (Map_unicode_ToUpper : gostring -> gostring)
    (w : World) (rf : gostring -> gostring + gostring) :
  getEnv Map_unicode_ToUpper (environ w) (lit "post_message") ≠ [] ->
  main Map_unicode_ToUpper (with_ReadFile w rf) = main Map_unicode_ToUpper w.
Proof.
  intros H. unfold main, main_exchange. cbv zeta. cbn [environ with_ReadFile
    ReadFile Marshal NewRequest Do Unmarshal_response].
  by rewrite (bool_decide_eq_false_2 _ H).
Qed.

Lemma main_post_message_first_example :
  main id (with_ReadFile (example_world (lit "ok")) (fun _ => inl (lit "other")))
  = main id (example_world (lit "ok")).
Proof.
  apply (main_post_message_first id). vm_compute. discriminate.
Defined.

(** ** The keys of an assignee object *)

Lemma range_forall (P : Z -> bool) (lo : Z) (n : nat) :
  forallb P (map (fun i => lo + Z.of_nat i) (seq 0 n)) = true ->
  forall x, lo <= x < lo + Z.of_nat n -> P x = true.
Proof.
  intros H x Hx. rewrite forallb_forall in H. apply H.
  apply in_map_iff. exists (Z.to_nat (x - lo)). split; [lia|].
  apply in_seq. lia.
Qed.

Lemma byte_val_bound c : 0 <= byte_val c < 256.
Proof.
  unfold byte_val. pose proof (N_ascii_bounded c). lia.
Qed.

Lemma byte_val_byte_of z : byte_val (byte_of z) = z mod 256.
Proof.
  unfold byte_val, byte_of.
  pose proof (Z.mod_pos_bound z 256 ltac:(lia)).
  rewrite N_ascii_embedding by lia. lia.
Qed.

Lemma land_le_r a b : 0 <= a -> 0 <= b -> Z.land a b <= b.
Proof.
  intros Ha Hb. rewrite <- (Z2N.id a), <- (Z2N.id b) by lia.
  rewrite <- N2Z.inj_land. apply N2Z.inj_le, N.land_le_r.
Qed.

Lemma lor_lower k a b : 0 <= a -> 0 <= b -> k <= a \/ k <= b -> k <= Z.lor a b.
Proof.
  intros Ha Hb Hk. pose proof (Z.add_lor_land a b) as E.
  pose proof (land_le_r a b Ha Hb). pose proof (land_le_r b a Hb Ha) as H'.
  rewrite Z.land_comm in H'. lia.
Qed.

Lemma shiftl_land_nonneg x m n : 0 <= m -> 0 <= Z.shiftl (Z.land x m) n.
Proof. intros H. apply Z.shiftl_nonneg, Z.land_nonneg. by right. Qed.

Lemma land_nonneg_r x m : 0 <= m -> 0 <= Z.land x m.
Proof. intros H. apply Z.land_nonneg. by right. Qed.

Lemma first_cases p0 sz lo hi :
  utf8.first p0 = Some (sz, lo, hi) ->
  (sz = 2%nat /\ 194 <= p0 <= 223)
  \/ (sz = 3%nat /\ p0 = 224 /\ lo = 160 /\ hi = 191)
  \/ (sz = 3%nat /\ 225 <= p0 <= 239)
  \/ (sz = 4%nat /\ p0 = 240 /\ lo = 144 /\ hi = 191)
  \/ (sz = 4%nat /\ 241 <= p0 <= 244).
Proof.
  unfold utf8.first, between. intros H.
  repeat match type of H with
         | (if ?a <=? ?b then _ else _) = _ => destruct (Z.leb_spec a b)
         | (if (?a <=? ?b) && (?c <=? ?d) then _ else _) = _ =>
           destruct (Z.leb_spec a b); destruct (Z.leb_spec c d); cbn [andb] in H
         | (if ?a =? ?b then _ else _) = _ => destruct (Z.eqb_spec a b)
         end; simplify_eq; lia.
Qed.

Lemma between_true lo hi x : between lo hi x = true -> lo <= x <= hi.
Proof. unfold between. intros [?%Z.leb_le ?%Z.leb_le]%andb_true_iff. lia. Qed.

Lemma DecodeRune_high p r size :
  128 <= utf8.at_ p 0 -> utf8.DecodeRune p = (r, size) -> 128 <= r.
Proof.
  intros Hp. unfold utf8.DecodeRune, utf8.RuneError, utf8.RuneSelf.
  destruct (length p <? 1)%nat; [intros [= <- _]; lia|].
  destruct (Z.ltb_spec (utf8.at_ p 0) 128) as [?|_]; [lia|].
  destruct (utf8.first (utf8.at_ p 0)) as [ [ [sz lo] hi]|] eqn:F;
    [|intros [= <- _]; lia].
  destruct (length p <? sz)%nat; [intros [= <- _]; lia|].
  destruct (between lo hi (utf8.at_ p 1)) eqn:B1; cbn [negb];
    [|intros [= <- _]; lia].
  apply between_true in B1.
  pose proof (range_forall (fun x => 128 <=? Z.shiftl (Z.land x 31) 6) 194 30
                ltac:(vm_compute; reflexivity) (utf8.at_ p 0)) as H2.
  pose proof (range_forall (fun x => 128 <=? Z.shiftl (Z.land x 63) 6) 160 32
                ltac:(vm_compute; reflexivity) (utf8.at_ p 1)) as H3a.
  pose proof (range_forall (fun x => 128 <=? Z.shiftl (Z.land x 15) 12) 225 15
                ltac:(vm_compute; reflexivity) (utf8.at_ p 0)) as H3.
  pose proof (range_forall (fun x => 128 <=? Z.shiftl (Z.land x 63) 12) 144 48
                ltac:(vm_compute; reflexivity) (utf8.at_ p 1)) as H4a.
  pose proof (range_forall (fun x => 128 <=? Z.shiftl (Z.land x 7) 18) 241 4
                ltac:(vm_compute; reflexivity) (utf8.at_ p 0)) as H4.
  cbv beta in H2, H3a, H3, H4a, H4.
  pose proof (first_spec _ _ _ _ F) as [_ Hlo].
  pose proof (byte_val_bound (nth 1 p zero)) as Hb1.
  change (byte_val (nth 1 p zero)) with (utf8.at_ p 1) in Hb1.
  apply first_cases in F
    as [(-> & F) | [(-> & F & -> & ->) | [(-> & F)
       | [(-> & F & -> & ->) | (-> & F)] ] ] ];
    cbn [Nat.leb].
  - intros [= <- _]. apply lor_lower;
      [by apply shiftl_land_nonneg|by apply land_nonneg_r|].
    left. apply Z.leb_le, H2. lia.
  - destruct (between 128 191 (utf8.at_ p 2)); cbn [negb];
      intros [= <- _]; [|lia].
    apply lor_lower; [|by apply land_nonneg_r|left].
    { apply Z.lor_nonneg. split; by apply shiftl_land_nonneg. }
    apply lor_lower; [by apply shiftl_land_nonneg..|].
    right. apply Z.leb_le, H3a. lia.
  - destruct (between 128 191 (utf8.at_ p 2)); cbn [negb];
      intros [= <- _]; [|lia].
    apply lor_lower; [|by apply land_nonneg_r|left].
    { apply Z.lor_nonneg. split; by apply shiftl_land_nonneg. }
    apply lor_lower; [by apply shiftl_land_nonneg..|].
    left. apply Z.leb_le, H3. lia.
  - destruct (between 128 191 (utf8.at_ p 2)); cbn [negb];
      [|intros [= <- _]; lia].
    destruct (between 128 191 (utf8.at_ p 3)); cbn [negb];
      intros [= <- _]; [|lia].
    apply lor_lower; [|by apply land_nonneg_r|left].
    { repeat (apply Z.lor_nonneg; split); by apply shiftl_land_nonneg. }
    apply lor_lower; [|by apply shiftl_land_nonneg|left].
    { apply Z.lor_nonneg. split; by apply shiftl_land_nonneg. }
    apply lor_lower; [by apply shiftl_land_nonneg..|].
    right. apply Z.leb_le, H4a. lia.
  - destruct (between 128 191 (utf8.at_ p 2)); cbn [negb];
      [|intros [= <- _]; lia].
    destruct (between 128 191 (utf8.at_ p 3)); cbn [negb];
      intros [= <- _]; [|lia].
    apply lor_lower; [|by apply land_nonneg_r|left].
    { repeat (apply Z.lor_nonneg; split); by apply shiftl_land_nonneg. }
    apply lor_lower; [|by apply shiftl_land_nonneg|left].
    { apply Z.lor_nonneg. split; by apply shiftl_land_nonneg. }
    apply lor_lower; [by apply shiftl_land_nonneg..|].
    left. apply Z.leb_le, H4. lia.
Qed.

Lemma EncodeRune_head x :
  exists c0 rest,
    utf8.EncodeRune x = c0 :: rest /\ (128 <= byte_val c0 \/ byte_val c0 = x).
Proof.
  unfold utf8.EncodeRune.
  destruct (between 0 127 x) eqn:B0.
  { apply between_true in B0. eexists _, _. split; [done|]. right.
    rewrite byte_val_byte_of. by rewrite Z.mod_small by lia. }
  destruct (between 0 2047 x) eqn:B1.
  { apply between_true in B1. eexists _, _. split; [done|]. left.
    apply Z.leb_le.
    apply (range_forall (fun q => 128 <=? byte_val (byte_of (Z.lor 192 q))) 0 32);
      [vm_compute; reflexivity|].
    rewrite Z.shiftr_div_pow2 by lia. change (2 ^ 6) with 64.
    pose proof (Z.div_pos x 64). pose proof (Z.div_lt_upper_bound x 64 32). lia. }
  set (r := if (x <? 0) || (utf8.MaxRune <? x) || between 55296 57343 x
            then utf8.RuneError else x).
  assert (Hr : 0 <= r <= utf8.MaxRune).
  { subst r. unfold utf8.MaxRune, utf8.RuneError.
    destruct (Z.ltb_spec x 0); [cbn; lia|].
    destruct (Z.ltb_spec 1114111 x); [cbn; lia|].
    destruct (between 55296 57343 x); cbn; lia. }
  unfold utf8.MaxRune in Hr.
  destruct (Z.leb_spec r 65535).
  - eexists _, _. split; [done|]. left. apply Z.leb_le.
    apply (range_forall (fun q => 128 <=? byte_val (byte_of (Z.lor 224 q))) 0 16);
      [vm_compute; reflexivity|].
    rewrite Z.shiftr_div_pow2 by lia. change (2 ^ 12) with 4096.
    pose proof (Z.div_pos r 4096). pose proof (Z.div_lt_upper_bound r 4096 16).
    lia.
  - eexists _, _. split; [done|]. left. apply Z.leb_le.
    apply (range_forall (fun q => 128 <=? byte_val (byte_of (Z.lor 240 q))) 0 5);
      [vm_compute; reflexivity|].
    rewrite Z.shiftr_div_pow2 by lia. change (2 ^ 18) with 262144.
    pose proof (Z.div_pos r 262144).
    pose proof (Z.div_lt_upper_bound r 262144 5). lia.
Qed.

Lemma foldName_loop_ascii n s :
  strings.isASCII s = true -> (length s <= n)%nat ->
  json.foldName_loop n s = map strings.upper_byte s.
Proof.
  revert s. induction n as [|n IH]; intros s Hs Hn.
  - destruct s; [done|simpl in Hn; lia].
  - destruct s as [|c r]; [done|]. cbn [json.foldName_loop map].
    apply isASCII_cons in Hs as [Hc Hr]. apply Z.leb_gt in Hc.
    unfold utf8.RuneSelf in *.
    destruct (Z.ltb_spec (byte_val c) 128); [|lia].
    rewrite IH; [done|done|simpl in Hn; lia].
Qed.

Lemma foldName_loop_plain n s t :
  (length s <= n)%nat -> forallb plain_byte t = true ->
  json.foldName_loop n s = t ->
  strings.isASCII s = true /\ map strings.upper_byte s = t.
Proof.
  revert s t. induction n as [|n IH]; intros s t Hn Ht.
  - destruct s; [done|simpl in Hn; lia].
  - destruct s as [|c r]; [done|]. cbn [json.foldName_loop].
    unfold utf8.RuneSelf. destruct (Z.ltb_spec (byte_val c) 128) as [Hc|Hc].
    + intros <-. cbn [forallb] in Ht. apply andb_true_iff in Ht as [_ Ht].
      destruct (IH r _ ltac:(simpl in Hn; lia) Ht eq_refl) as [Hr Hm].
      split; [|by cbn [map]; rewrite Hm].
      unfold strings.isASCII in *. cbn [forallb]. rewrite Hr.
      unfold utf8.RuneSelf. by destruct (Z.ltb_spec (byte_val c) 128); [|lia].
    + destruct (utf8.DecodeRune (c :: r)) as [rr m] eqn:D.
      apply DecodeRune_high in D; [|by rewrite at_cons].
      destruct (EncodeRune_head (json.foldRune rr)) as (c0 & rest & -> & Hc0).
      intros <-. exfalso. cbn [app forallb] in Ht.
      apply andb_true_iff in Ht as [Ht _]. unfold plain_byte in Ht.
      apply andb_true_iff in Ht as [ [H1 H2]%andb_true_iff H3].
      apply Z.ltb_lt in H1. apply negb_true_iff, Z.eqb_neq in H2, H3.
      destruct Hc0 as [?|Hc0]; [lia|]. unfold json.foldRune in Hc0.
      destruct (Z.eqb_spec rr 383); [lia|].
      destruct (Z.eqb_spec rr 8490); lia.
Qed.

(** X19. The key of the login member is matched without regard to the
    case of its ASCII letters, and by nothing else: an object key selects
    the field [login] exactly when its bytes, with the ASCII letters set to
    upper case, spell [LOGIN]; no key holding a byte outside ASCII does. *)
Theorem login_key_case (key : gostring) :
  json.field_matches (lit "login") key = true
  <-> map strings.upper_byte key = lit "LOGIN".
Proof.
  unfold json.field_matches. rewrite orb_true_iff, !bool_decide_eq_true.
  change (json.foldName (lit "login")) with (lit "LOGIN").
  split.
  - intros [->|H]; [done|].
    by apply (foldName_loop_plain (length key) key (lit "LOGIN")) in H as [_ H].
  - intros H. right. unfold json.foldName.
    rewrite foldName_loop_ascii; [done| |done].
    by rewrite <- isASCII_upper, H.
Qed.

(** ** The ways a run ends *)

Lemma main_exchange_annotation upper w stderr :
  main_exchange upper w = inl (Fatal stderr) ->
  (exists t, stderr = lit "::error::" ++ t) /\ (exists t, stderr = t ++ newline).
Proof.
  unfold main_exchange. intros H.
  repeat match type of H with
         | (if ?c then _ else _) = _ => destruct c
         | match ?x with inl _ => _ | inr _ => _ end = _ => destruct x
         | match ?x with Some _ => _ | None => _ end = _ => destruct x
         | (let '(_, _) := ?p in _) = _ => destruct p
         end; try discriminate H;
    match type of H with
    | inl (Fatal ?x) = _ => assert (stderr = x) as -> by (by injection H)
    end;
    (split; [by eexists|eexists; rewrite ?app_assoc; reflexivity]).
Qed.

(** X20. Every run ends in one of two ways: with the success notice on
    standard output and exit status 0, or with exit status 1 and a message
    on standard error that begins with the annotation [::error::] and ends
    with a line feed. *)
Theorem main_outcome_shape (Map_unicode_ToUpper : gostring -> gostring)
    (w : World) :
  (main Map_unicode_ToUpper w
   = Success (lit "::notice::Message sent successfully" ++ newline)
   /\ exit_status (main Map_unicode_ToUpper w) = 0)
  \/ (exists stderr,
        main Map_unicode_ToUpper w = Fatal stderr
        /\ exit_status (main Map_unicode_ToUpper w) = 1
        /\ (exists t, stderr = lit "::error::" ++ t)
        /\ (exists t, stderr = t ++ newline)).
Proof.
  unfold main.
  destruct (main_exchange Map_unicode_ToUpper w) as [o|[StatusCode resp] ] eqn:E.
  - right. destruct (main_exchange_early _ _ _ E) as [stderr ->].
    exists stderr. repeat split; try done;
      by apply (main_exchange_annotation _ _ _ E).
  - unfold check_response. destruct (negb _ || negb _); [right|by left].
    eexists. repeat split; [by eexists|].
    eexists. rewrite ?app_assoc. reflexivity.
Qed.

(** ** Assignee texts in compact form *)

Lemma string_body_plain n login rest :
  plain_login login = true -> (length login < n)%nat ->
  json.string_body n (login ++ dquote :: rest) = Some (login, rest).
Proof.
  revert n. induction login as [|c s IH]; intros n Hp Hn.
  - destruct n as [|n]; [lia|]. reflexivity.
  - destruct n as [|n]; [simpl in Hn; lia|].
    cbn [plain_login forallb] in Hp.
    apply andb_true_iff in Hp as [Hc Hs].
    apply andb_true_iff in Hc as [ [ [H32 H128]%andb_true_iff H34]%andb_true_iff H92].
    apply negb_true_iff in H34, H92. apply Z.leb_le in H32.
    rewrite <- app_comm_cons. cbn [json.string_body]. cbv zeta.
    rewrite H34, H92. unfold utf8.RuneSelf. rewrite H128.
    destruct (Z.ltb_spec (byte_val c) 32); [lia|].
    rewrite (IH n Hs) by (simpl in Hn; lia). reflexivity.
Qed.

Lemma string_body_plain_length login rest :
  plain_login login = true ->
  json.string_body (length (login ++ dquote :: rest)) (login ++ dquote :: rest)
  = Some (login, rest).
Proof.
  intros H. apply string_body_plain; [done|]. rewrite length_app. simpl. lia.
Qed.

Lemma skip_space_nonspace c r :
  json.isSpace c = false -> json.skip_space (c :: r) = c :: r.
Proof. intros H. cbn [json.skip_space]. by rewrite H. Qed.

Lemma parse_value_quoted k login rest :
  plain_login login = true ->
  json.parse_value (S k) (dquote :: login ++ dquote :: rest)
  = Some (json.String login, rest).
Proof.
  intros Hp.
  transitivity ('(t, rest0) ← json.string_body
                                (length (login ++ dquote :: rest))
                                (login ++ dquote :: rest);
                Some (json.String t, rest0)); [reflexivity|].
  by rewrite string_body_plain_length.
Qed.

Lemma record_text_shape login rest :
  record_text login ++ rest
  = "{"%char :: dquote :: lit "login" ++ dquote :: ":"%char :: dquote
    :: login ++ dquote :: "}"%char :: rest.
Proof. unfold record_text. rewrite <- !app_assoc. reflexivity. Qed.

Lemma parse_members_login k login rest :
  plain_login login = true ->
  json.parse_members (S (S k))
    (dquote :: lit "login" ++ dquote :: ":"%char :: dquote
     :: login ++ dquote :: "}"%char :: rest)
  = Some ([(lit "login", json.String login)], rest).
Proof.
  intros Hp. remember (S k) as K eqn:HK. cbn [json.parse_members].
  change (byte_val dquote =? 34) with true. cbv iota.
  rewrite (string_body_plain_length (lit "login")) by reflexivity.
  cbn [mbind option_bind]. rewrite skip_space_nonspace by reflexivity.
  change (byte_val ":" =? 58) with true. cbv iota.
  rewrite skip_space_nonspace by reflexivity.
  rewrite HK, parse_value_quoted by done. cbn [mbind option_bind].
  rewrite skip_space_nonspace by reflexivity. reflexivity.
Qed.

Lemma parse_value_record k login rest :
  plain_login login = true ->
  json.parse_value (S (S (S k))) (record_text login ++ rest)
  = Some (json.Object [(lit "login", json.String login)], rest).
Proof.
  intros Hp. rewrite record_text_shape.
  remember (S (S k)) as K eqn:HK. cbn [json.parse_value]. cbv zeta.
  change (byte_val "{" =? 123) with true. cbv iota.
  rewrite skip_space_nonspace by reflexivity.
  change (byte_val dquote =? 125) with false. cbv iota.
  by rewrite HK, parse_members_login.
Qed.

Lemma record_text_head login rest :
  exists r, record_text login ++ rest = "{"%char :: r.
Proof. rewrite record_text_shape. by eexists. Qed.

Lemma Join_records_head logins rest :
  logins ≠ [] ->
  exists r, Join (map record_text logins) ","%char ++ rest = "{"%char :: r.
Proof.
  destruct logins as [|l ls]; [done|]. intros _. cbn [map].
  destruct ls as [|l' ls].
  - cbn [map Join]. apply record_text_head.
  - rewrite Join_cons by done. rewrite <- app_assoc. apply record_text_head.
Qed.

Lemma parse_elements_records k logins rest :
  logins ≠ [] -> forallb plain_login logins = true ->
  json.parse_elements (length logins + S (S (S k)))
    (Join (map record_text logins) ","%char ++ "]"%char :: rest)
  = Some (map (fun l => json.Object [(lit "login", json.String l)]) logins,
          rest).
Proof.
  induction logins as [|l ls IH]; [done|]. intros _ Hp.
  cbn [forallb] in Hp. apply andb_true_iff in Hp as [Hl Hls].
  cbn [length map Nat.add]. cbn [json.parse_elements].
  destruct ls as [|l' ls].
  - cbn [map Join length Nat.add].
    rewrite parse_value_record by done. cbn [mbind option_bind].
    rewrite skip_space_nonspace by reflexivity. reflexivity.
  - rewrite Join_cons by done. rewrite <- app_assoc.
    replace (length (l' :: ls) + S (S (S k)))%nat
      with (S (S (S (length ls + S k)))) by (simpl; lia).
    rewrite parse_value_record by done. cbn [mbind option_bind].
    rewrite <- app_comm_cons.
    rewrite skip_space_nonspace by reflexivity.
    change (byte_val "," =? 44) with true. cbv iota.
    destruct (Join_records_head (l' :: ls) ("]"%char :: rest)) as [r Hr]; [done|].
    rewrite Hr.
    rewrite skip_space_nonspace by reflexivity. rewrite <- Hr.
    replace (S (S (S (length ls + S k))))
      with (length (l' :: ls) + S (S (S k)))%nat by (simpl; lia).
    specialize (IH ltac:(done) Hls). by rewrite IH.
Qed.

Lemma parse_array_text logins :
  forallb plain_login logins = true ->
  json.parse (array_text logins)
  = Some (json.Array
            (map (fun l => json.Object [(lit "login", json.String l)]) logins)).
Proof.
  intros Hp. unfold array_text.
  apply (parse_fuel_enough (S (length logins + 3))) with (rest := []);
    [|reflexivity].
  rewrite skip_space_nonspace by reflexivity.
  cbn [json.parse_value]. cbv zeta.
  change (byte_val "[" =? 123) with false.
  change (byte_val "[" =? 91) with true. cbv iota.
  destruct logins as [|l ls].
  - reflexivity.
  - destruct (Join_records_head (l :: ls) ["]"%char]) as [r Hr]; [done|].
    rewrite Hr. rewrite skip_space_nonspace by reflexivity.
    change (byte_val "{" =? 93) with false. cbv iota. rewrite <- Hr.
    by rewrite (parse_elements_records 0).
Qed.

Lemma array_Assignees_records logins :
  decode.array_Assignees
    (map (fun l => json.Object [(lit "login", json.String l)]) logins)
  = (map (fun l => {| Login := l |}) logins, None).
Proof.
  induction logins as [|l ls IH]; [done|].
  cbn [map decode.array_Assignees]. rewrite IH. reflexivity.
Qed.

(** X21. The array of records as it is written without white space is read
    for what it says: for every list of logins of printable ASCII without
    double quote and backslash, the text
    [[{"login":"l1"},...,{"login":"ln"}]] decodes to exactly these records,
    one record alone is read as the list holding it, and [parseUsers]
    writes the tokens of the valid pairs whose username is among the
    logins. *)
Theorem parseUsers_compact_array (userMaps : gostring)
    (logins : list gostring) :
  forallb plain_login logins = true ->
  parse_assignees (array_text logins)
  = Some (map (fun l => {| Login := l |}) logins)
  /\ (forall l, l ∈ logins ->
        parse_assignees (record_text l) = Some [ {| Login := l |} ])
  /\ parseUsers userMaps (array_text logins)
     = concat (map token
         (List.filter (fun p => bool_decide (p.1 ≠ [] /\ p.1 ∈ logins))
                      (valid_pairs userMaps))).
Proof.
  intros Hp.
  assert (E : parse_assignees (array_text logins)
              = Some (map (fun l => {| Login := l |}) logins)).
  { unfold parse_assignees, Unmarshal_Assignees.
    rewrite parse_array_text by done. cbn [decode.value_Assignees].
    by rewrite array_Assignees_records. }
  split; [done|split].
  - intros l Hl. rewrite forallb_forall in Hp.
    apply list_elem_of_In, Hp in Hl.
    assert (P : json.parse (record_text l)
                = Some (json.Object [(lit "login", json.String l)])).
    { apply (parse_fuel_enough 3) with (rest := []); [|reflexivity].
      destruct (record_text_head l []) as [r Hr].
      rewrite app_nil_r in Hr. rewrite Hr.
      rewrite skip_space_nonspace by reflexivity. rewrite <- Hr.
      rewrite <- (app_nil_r (record_text l)). by apply parse_value_record. }
    unfold parse_assignees, Unmarshal_Assignees, Unmarshal_Assignee.
    rewrite P. reflexivity.
  - rewrite parseUsers_spec, E. unfold emitted, assigned.
    by rewrite <- list_fmap_compose, list_fmap_id.
Qed.

Lemma parseUsers_compact_array_example :
  parse_assignees (raw "[{'login':'b'},{'login':'a'}]")
  = Some [ {| Login := lit "b" |}; {| Login := lit "a" |} ]
  /\ (forall l, l ∈ [lit "b"; lit "a"] ->
        parse_assignees (record_text l) = Some [ {| Login := l |} ])
  /\ parseUsers (lit "a:1,b:2,c:3") (raw "[{'login':'b'},{'login':'a'}]")
     = concat (map token
         (List.filter (fun p => bool_decide (p.1 ≠ [] /\ p.1 ∈ [lit "b"; lit "a"]))
                      (valid_pairs (lit "a:1,b:2,c:3")))).
Proof.
  apply (parseUsers_compact_array (lit "a:1,b:2,c:3") [lit "b"; lit "a"]).
  vm_compute. reflexivity.
Defined.
